(** * Resume shortlisting: tokenizer, metadata extraction, TF-IDF ranking

    A shallow embedding of the two edge functions of the repository:

    - [supabase/functions/calculate-similarity/index.ts]
      ([tokenize], [calculateTfIdf], [cosineSimilarity],
      [findMatchedKeywords] and the request handler), and
    - the resume-processing function ([extractEmail], [extractName],
      [extractSkills], [cleanText] and its handler).

    Conventions of the embedding.

    - A JavaScript string is a list of code units.  The code units modelled
      are those of Latin-1 (U+0000 to U+00FF), one [ascii] each; the
      character classes and [toLowerCase] below are the restrictions of the
      JavaScript ones to that range.
    - A JavaScript number is a real number ([R]): arithmetic is exact,
      [Math.log] is [ln] and [Math.sqrt] is [sqrt].  Rounding error of the
      binary64 operations is not modelled, and neither are its infinities:
      the weights are read for a corpus that is not empty (for an empty one
      [Math.log(0)] is [-Infinity]), and what is stated of the numbers
      computed is what rounding leaves true.
    - A [Map] is an association list in insertion order; a [Set] built from
      an array is that array with later duplicates dropped.
    - The regular expressions of the source are run by a small backtracking
      matcher with the priorities of the JavaScript one (leftmost start,
      greedy quantifiers). *)

From Stdlib Require Import Ascii String.
From Stdlib Require Import List Bool Arith Lia.
From Stdlib Require Import Permutation Sorted.
From Stdlib Require Import Reals Lra Psatz.
Import ListNotations.

Set Implicit Arguments.

(** ** Strings and character classes *)

Definition str := list ascii.

Definition lit (s : string) : str := list_ascii_of_string s.

Definition code (c : ascii) : nat := nat_of_ascii c.

Definition between (lo hi n : nat) : bool := (lo <=? n) && (n <=? hi).

(** [\s] on Latin-1: TAB, LF, VT, FF, CR, SPACE and NBSP. *)
Definition isSpace (c : ascii) : bool :=
  between 9 13 (code c) || (code c =? 32) || (code c =? 160).

Definition isDigit (c : ascii) : bool := between 48 57 (code c).
Definition isLowerAz (c : ascii) : bool := between 97 122 (code c).
Definition isUpperAz (c : ascii) : bool := between 65 90 (code c).
Definition isLetter (c : ascii) : bool := isLowerAz c || isUpperAz c.

(** [\w] is [A-Za-z0-9_]. *)
Definition isWord (c : ascii) : bool :=
  isLetter c || isDigit c || (code c =? 95).

(** The upper-case letters of Latin-1: A-Z, and U+00C0-U+00DE without the
    multiplication sign U+00D7. *)
Definition isUpperCase (c : ascii) : bool :=
  isUpperAz c || (between 192 222 (code c) && negb (code c =? 215)).

Definition lowerChar (c : ascii) : ascii :=
  if isUpperCase c then ascii_of_nat (code c + 32) else c.

Definition toLowerCase (s : str) : str := map lowerChar s.

Definition space : ascii := " "%char.

Fixpoint str_eqb (a b : str) : bool :=
  match a, b with
  | [], [] => true
  | x :: a', y :: b' => Ascii.eqb x y && str_eqb a' b'
  | _, _ => false
  end.

(** [String.prototype.trim]: white space dropped at both ends. *)
Fixpoint dropSpaces (s : str) : str :=
  match s with
  | c :: s' => if isSpace c then dropSpaces s' else s
  | [] => []
  end.

Definition trim (s : str) : str := rev (dropSpaces (rev (dropSpaces s))).

(** A string that does not begin with white space. *)
Definition headNotSpace (s : str) : Prop :=
  match s with c :: _ => isSpace c = false | [] => True end.

(** A string whose only white-space character is the space. *)
Definition onlySpaces (s : str) : Prop :=
  Forall (fun c => isSpace c = true -> c = space) s.

Definition str_eq_dec : forall a b : str, {a = b} + {a <> b} :=
  list_eq_dec ascii_dec.

(** [s.split(sep)] for a one-character separator string. *)
Fixpoint splitChar (sep : ascii) (cur : str) (s : str) : list str :=
  match s with
  | [] => [rev cur]
  | c :: s' =>
      if Ascii.eqb c sep then rev cur :: splitChar sep [] s'
      else splitChar sep (c :: cur) s'
  end.

(** [s.split(/\s+/)]: the pieces between maximal runs of white space.  A
    string that begins or ends with white space has an empty first or last
    piece, and the empty string splits into one empty piece.  [inRun] tells
    that the previous character belonged to the separator being skipped. *)
Fixpoint splitSpaces (inRun : bool) (cur : str) (s : str) : list str :=
  match s with
  | [] => [rev cur]
  | c :: s' =>
      if isSpace c then
        if inRun then splitSpaces true cur s'
        else rev cur :: splitSpaces true [] s'
      else splitSpaces false (c :: cur) s'
  end.

(** ** Tokenizer (index.ts, [tokenize]) *)

Module Tokenizer.

(** The class [[a-z0-9\s]] whose complement is replaced. *)
Definition keptChar (c : ascii) : bool :=
  isLowerAz c || isDigit c || isSpace c.

(** [.replace(/[^a-z0-9\s]/g, ' ')] *)
Definition replaceOther (s : str) : str :=
  map (fun c => if keptChar c then c else space) s.

Definition tokenize (text : str) : list str :=
  filter (fun word => 2 <? length word)
         (splitSpaces false [] (replaceOther (toLowerCase text))).

(** The maximal runs of characters that are not white space: [wordsOf]
    closes a run at each white-space character and never produces an empty
    word. *)
Fixpoint wordsOf (cur : str) (s : str) : list str :=
  match s with
  | [] => match cur with [] => [] | _ => [rev cur] end
  | c :: s' =>
      if isSpace c then
        match cur with
        | [] => wordsOf [] s'
        | _ => rev cur :: wordsOf [] s'
        end
      else wordsOf (c :: cur) s'
  end.

(** The tokenizer in the words of the specification, written anew from
    tables and sharing no step with [tokenize]: lower-case the text; replace
    every character outside [[a-z0-9]] and white space by one space; split
    on runs of white space; drop the tokens of length at most two. *)

(** The codes of the upper-case letters: A-Z, U+00C0-U+00D6, U+00D8-U+00DE. *)
Definition specUpper : list nat := seq 65 26 ++ seq 192 23 ++ seq 216 7.

Definition specLower (c : ascii) : ascii :=
  if existsb (Nat.eqb (nat_of_ascii c)) specUpper
  then ascii_of_nat (nat_of_ascii c + 32) else c.

(** The codes of the white-space characters. *)
Definition specWhite : list nat := [9; 10; 11; 12; 13; 32; 160]%nat.

Definition specSpace (c : ascii) : bool :=
  existsb (Nat.eqb (nat_of_ascii c)) specWhite.

Definition specAlnum : string := "abcdefghijklmnopqrstuvwxyz0123456789".

Definition specReplace (c : ascii) : ascii :=
  if existsb (Ascii.eqb c) (list_ascii_of_string specAlnum) || specSpace c
  then c else " "%char.

Fixpoint specWords (cur : str) (s : str) : list str :=
  match s with
  | [] => match cur with [] => [] | _ => [rev cur] end
  | c :: s' =>
      if specSpace c then
        match cur with
        | [] => specWords [] s'
        | _ => rev cur :: specWords [] s'
        end
      else specWords (c :: cur) s'
  end.

Definition tokenize_spec (text : str) : list str :=
  filter (fun word => negb (length word <=? 2))
         (specWords [] (map specReplace (map specLower text))).

End Tokenizer.

(** ** Regular expressions

    The fragment of JavaScript regular expressions the source uses for
    matching: a sequence of items, each a single character of a class, a
    greedy repetition [cls{min,}] of a class, or the assertion [\b]. *)

Module Regex.

Inductive ritem : Type :=
| One (cls : ascii -> bool)
| Many (min : nat) (cls : ascii -> bool)
| WordB.

Definition regex := list ritem.

Definition isWordAt (o : option ascii) : bool :=
  match o with Some c => isWord c | None => false end.

(** [matchHere items prev s] runs the items at the head of [s], [prev] being
    the character before it, and gives the length of the match the
    backtracking matcher finds first: a repetition takes as many characters
    as it can and gives them back one at a time while the rest fails. *)
Fixpoint matchHere (items : regex) (prev : option ascii) (s : str)
  : option nat :=
  match items with
  | [] => Some 0
  | One cls :: rest =>
      match s with
      | c :: s' =>
          if cls c then option_map S (matchHere rest (Some c) s') else None
      | [] => None
      end
  | WordB :: rest =>
      if xorb (isWordAt prev) (isWordAt (hd_error s))
      then matchHere rest prev s else None
  | Many min cls :: rest =>
      (fix many (n : nat) (prev : option ascii) (s : str) {struct s}
         : option nat :=
         let stop := if min <=? n then matchHere rest prev s else None in
         match s with
         | c :: s' =>
             if cls c then
               match many (S n) (Some c) s' with
               | Some k => Some (S k)
               | None => stop
               end
             else stop
         | [] => stop
         end) 0 prev s
  end.

(** The first start index at which the expression matches, with the length
    of the match there. *)
Fixpoint search (items : regex) (prev : option ascii) (s : str)
  : option (nat * nat) :=
  match matchHere items prev s with
  | Some n => Some (0, n)
  | None =>
      match s with
      | [] => None
      | c :: s' =>
          match search items (Some c) s' with
          | Some (i, n) => Some (S i, n)
          | None => None
          end
      end
  end.

(** [regex.test(s)] *)
Definition test (items : regex) (s : str) : bool :=
  match search items None s with Some _ => true | None => false end.

(** [s.match(regex)] without the [g] flag: [match[0]], or [null]. *)
Definition match0 (items : regex) (s : str) : option str :=
  match search items None s with
  | Some (i, n) => Some (firstn n (skipn i s))
  | None => None
  end.

(** Case folding of the [i] flag on Latin-1: a-z and U+00E0-U+00FE without
    the division sign U+00F7 go to their upper-case letters; the upper case
    of every other lower-case character lies outside Latin-1 or is not one
    character, so that character only matches itself. *)
Definition canonicalize (c : ascii) : ascii :=
  if isLowerAz c || (between 224 254 (code c) && negb (code c =? 247))
  then ascii_of_nat (code c - 32) else c.

Definition literal (ignoreCase : bool) (c : ascii) : ascii -> bool :=
  fun x =>
    if ignoreCase then Ascii.eqb (canonicalize x) (canonicalize c)
    else Ascii.eqb x c.

Definition backslash : ascii := "\"%char.

(** [new RegExp(pattern, flags)] for the patterns the skill vocabulary
    builds: [\b] is the word-boundary assertion, a backslash before any
    other character makes it a literal, and every other character of these
    patterns (letters, space, [#], [-]) stands for itself. *)
Fixpoint compile (ignoreCase : bool) (pattern : str) : regex :=
  match pattern with
  | [] => []
  | c :: p' =>
      if Ascii.eqb c backslash then
        match p' with
        | [] => []
        | e :: p'' =>
            if Ascii.eqb e "b"%char then WordB :: compile ignoreCase p''
            else One (literal ignoreCase e) :: compile ignoreCase p''
        end
      else One (literal ignoreCase c) :: compile ignoreCase p'
  end.

End Regex.

(** ** Metadata extraction (the resume-processing function) *)

Module Extract.
Import Regex.

Definition isOneOf (cs : string) (c : ascii) : bool :=
  existsb (Ascii.eqb c) (lit cs).

(** [/[a-zA-Z0-9._%+-]+@[a-zA-Z0-9.-]+\.[a-zA-Z]{2,}/] *)
Definition emailRegex : regex :=
  [ Many 1 (fun c => isLetter c || isDigit c || isOneOf "._%+-" c);
    One (Ascii.eqb "@"%char);
    Many 1 (fun c => isLetter c || isDigit c || isOneOf ".-" c);
    One (Ascii.eqb "."%char);
    Many 2 isLetter ].

Definition extractEmail (text : str) : option str :=
  match0 emailRegex text.

Definition newline : ascii := ascii_of_nat 10.

Definition extractName (text : str) : option str :=
  let lines :=
    filter (fun line => 0 <? length (trim line)) (splitChar newline [] text) in
  match lines with
  | line0 :: _ =>
      let firstLine := trim line0 in
      if (length firstLine <? 50) && negb (test [One isDigit] firstLine)
      then Some firstLine
      else None
  | [] => None
  end.

(** The vocabulary, as the strings of the source: the entry written
    ['c\\+\\+'] there is the five characters [c\+\+]. *)
Definition commonSkills : list str := map lit
  [ "javascript"; "typescript"; "python"; "java"; "c\+\+"; "c#"; "ruby";
    "php"; "swift"; "kotlin";
    "react"; "angular"; "vue"; "node"; "express"; "django"; "flask";
    "spring"; "laravel";
    "sql"; "mongodb"; "postgresql"; "mysql"; "redis"; "elasticsearch";
    "aws"; "azure"; "gcp"; "docker"; "kubernetes"; "jenkins"; "git";
    "machine learning"; "deep learning"; "nlp"; "computer vision";
    "data science";
    "html"; "css"; "sass"; "tailwind"; "bootstrap";
    "rest api"; "graphql"; "microservices"; "agile"; "scrum";
    "tensorflow"; "pytorch"; "scikit-learn"; "pandas"; "numpy";
    "communication"; "leadership"; "teamwork"; "problem solving";
    "project management" ]%string.

(** [skill.replace(/\\\\[+]/g, '+')]: the expression reads two backslash
    characters followed by a plus sign. *)
Fixpoint unescapePlus (s : str) : str :=
  match s with
  | [] => []
  | c :: s' =>
      match s' with
      | c2 :: c3 :: s''' =>
          if Ascii.eqb c backslash && Ascii.eqb c2 backslash
             && Ascii.eqb c3 "+"%char
          then "+"%char :: unescapePlus s'''
          else c :: unescapePlus s'
      | _ => c :: unescapePlus s'
      end
  end.

(** [[...new Set(xs)]]: first occurrences, in order. *)
Definition setOf (xs : list str) : list str :=
  fold_left
    (fun seen x => if existsb (str_eqb x) seen then seen else seen ++ [x])
    xs [].

Definition skillRegex (skill : str) : regex :=
  compile true (lit "\b" ++ skill ++ lit "\b").

(** The body of [extractSkills] over a vocabulary. *)
Definition extractSkillsFrom (vocabulary : list str) (text : str)
  : list str :=
  let lowerText := toLowerCase text in
  let foundSkills :=
    fold_left
      (fun found skill =>
         if test (skillRegex skill) lowerText
         then found ++ [unescapePlus skill] else found)
      vocabulary [] in
  setOf foundSkills.

Definition extractSkills (text : str) : list str :=
  extractSkillsFrom commonSkills text.

(** [.replace(/\s+/g, ' ')] *)
Fixpoint collapseSpaces (inRun : bool) (s : str) : str :=
  match s with
  | [] => []
  | c :: s' =>
      if isSpace c then
        if inRun then collapseSpaces true s'
        else space :: collapseSpaces true s'
      else c :: collapseSpaces false s'
  end.

(** The class [[\w\s@.\-]] whose complement is replaced. *)
Definition cleanKept (c : ascii) : bool :=
  isWord c || isSpace c || isOneOf "@.-" c.

Definition cleanText (text : str) : str :=
  trim (map (fun c => if cleanKept c then c else space)
            (collapseSpaces false text)).

Record ResumeData : Type := {
  filename : str;
  content : str;
  userId : str
}.

(** What the handler stores and reports for one resume. *)
Record Extracted : Type := {
  candidate_name : option str;
  candidate_email : option str;
  extracted_text : str;
  skills : list str
}.

Definition isEmpty (s : str) : bool :=
  match s with [] => true | _ => false end.

(** [!authHeader] for the value of [req.headers.get('Authorization')]: the
    header is absent, or present and empty. *)
Definition missing (authHeader : option str) : bool :=
  match authHeader with
  | None => true
  | Some value => isEmpty value
  end.

(** The handler from the authorization test to the values it inserts. *)
Definition processResume (authHeader : option str) (resumeData : ResumeData)
  : Extracted + str :=
  if missing authHeader then inr (lit "Missing authorization header")
  else
    if isEmpty (content resumeData) || isEmpty (filename resumeData)
    then inr (lit "Missing required fields: content and filename")
    else
      let cleanedText := cleanText (content resumeData) in
      inl {| candidate_name := extractName cleanedText;
             candidate_email := extractEmail cleanedText;
             extracted_text := cleanedText;
             skills := extractSkills cleanedText |}.

(** What the resume handler answers: the reply to an [OPTIONS] request, the
    values stored, or a failure with its message. *)
Inductive ResumeReply : Type :=
| ResumePreflight
| ResumeStored (stored : Extracted)
| ResumeFailed (message : str).

(** The whole handler: [method] is [req.method] and [insertError] the error
    the insertion reports, if any. *)
Definition handleResume (method : str) (authHeader : option str)
  (resumeData : ResumeData) (insertError : option str) : ResumeReply :=
  if str_eqb method (lit "OPTIONS") then ResumePreflight
  else
    match processResume authHeader resumeData with
    | inr message => ResumeFailed message
    | inl stored =>
        match insertError with
        | Some message => ResumeFailed message
        | None => ResumeStored stored
        end
    end.

End Extract.

(** ** Maps, sets and sorting of the JavaScript runtime *)

Section AssocMap.
Variable V : Type.

(** A [Map<string, V>] in insertion order. *)
Definition amap := list (str * V).

Fixpoint mget (m : amap) (k : str) : option V :=
  match m with
  | [] => None
  | (k', v) :: m' => if str_eqb k k' then Some v else mget m' k
  end.

(** [m.set(k, v)] keeps the position of a key that is already there. *)
Fixpoint mset (m : amap) (k : str) (v : V) : amap :=
  match m with
  | [] => [(k, v)]
  | (k', v') :: m' =>
      if str_eqb k k' then (k', v) :: m' else (k', v') :: mset m' k v
  end.

Definition mkeys (m : amap) : list str := map fst m.

End AssocMap.

Open Scope R_scope.

(** [x || 0] for a number read from a map: [undefined] and [0] give [0]. *)
Definition orZero (o : option R) : R :=
  match o with Some v => v | None => 0 end.

(** [doc.includes(token)] *)
Definition includes (doc : list str) (token : str) : bool :=
  existsb (str_eqb token) doc.

(** [xs.filter(t => t === token).length] *)
Definition countOf (token : str) (xs : list str) : nat :=
  length (filter (fun t => str_eqb t token) xs).

(** [Array.prototype.sort(cmp)].  The sort is stable, and [a] is moved
    behind [b] when [cmp(a, b) > 0]; for a comparator that orders the
    elements consistently this fixes the result, which is computed here by
    inserting each element, from the last to the first, before the first
    element it need not follow. *)
Section Sort.
Variable A : Type.
Variable cmp : A -> A -> R.

Definition after (a b : A) : bool :=
  if Rlt_dec 0 (cmp a b) then true else false.

Fixpoint insert (x : A) (l : list A) : list A :=
  match l with
  | [] => [x]
  | y :: l' => if after x y then y :: insert x l' else x :: l
  end.

Definition sort (l : list A) : list A := fold_right insert [] l.

End Sort.

(** [Math.round]: the nearest integer, halves going up. *)
Definition round (x : R) : R := IZR (Int_part (x + / 2)).

(** ** Term weighting and similarity (index.ts) *)

Module Similarity.
Import Tokenizer.

Definition calculateTfIdf (tokens : list str) (allTokens : list (list str))
  : amap R :=
  let tokenCount := INR (length tokens) in
  let tf :=
    fold_left
      (fun tf token => mset tf token (orZero (mget tf token) + 1 / tokenCount))
      tokens [] in
  let docCount := INR (length allTokens) in
  let idf :=
    fold_left
      (fun idf token =>
         let docsWithToken :=
           INR (length (filter (fun doc => includes doc token) allTokens)) in
         mset idf token (ln (docCount / (docsWithToken + 1))))
      tokens [] in
  fold_left
    (fun tfidf entry =>
       let '(token, tfValue) := entry in
       mset tfidf token (tfValue * orZero (mget idf token)))
    tf [].

Definition isZero (x : R) : bool :=
  if Req_dec_T x 0 then true else false.

Definition cosineSimilarity (vec1 vec2 : amap R) : R :=
  let allKeys := Extract.setOf (mkeys vec1 ++ mkeys vec2) in
  let '(dotProduct, mag1, mag2) :=
    fold_left
      (fun acc key =>
         let '(dotProduct, mag1, mag2) := acc in
         let v1 := orZero (mget vec1 key) in
         let v2 := orZero (mget vec2 key) in
         (dotProduct + v1 * v2, mag1 + v1 * v1, mag2 + v2 * v2))
      allKeys (0, 0, 0) in
  if isZero mag1 || isZero mag2 then 0
  else dotProduct / (sqrt mag1 * sqrt mag2).

Definition findMatchedKeywords (jobTokens resumeTokens : list str)
  (topN : nat) : list str :=
  let jobSet := Extract.setOf jobTokens in
  let resumeSet := Extract.setOf resumeTokens in
  let matched := filter (fun token => includes resumeSet token) jobSet in
  let frequency :=
    fold_left
      (fun frequency token =>
         let jobCount := INR (countOf token jobTokens) in
         let resumeCount := INR (countOf token resumeTokens) in
         mset frequency token (jobCount + resumeCount))
      matched [] in
  firstn topN
    (sort (fun a b => orZero (mget frequency b) - orZero (mget frequency a))
          matched).

Record JobPosting : Type := {
  job_id : str;
  description : str;
  requirements : option str
}.

Record Resume : Type := {
  id : str;
  extracted_text : str
}.

(** An element of [results]. *)
Record Result : Type := {
  resumeId : str;
  similarity : R;
  matchedKeywords : list str
}.

(** A row of [insertData]. *)
Record Row : Type := {
  job_posting_id : str;
  resume_id : str;
  similarity_score : R;
  matched_keywords : list str;
  ranking : nat
}.

Record MatchRequest : Type := {
  jobPostingId : str;
  resumeIds : option (list str)
}.

Inductive Response : Type :=
| Success (results : list Result) (inserted : list Row)
          (totalProcessed : nat)
| Failure (message : str).

(** [(jobPosting.requirements || '')] *)
Definition orEmpty (o : option str) : str :=
  match o with Some s => s | None => [] end.

Definition jobTokensOf (jobPosting : JobPosting) : list str :=
  tokenize (description jobPosting ++ [space]
            ++ orEmpty (requirements jobPosting)).

(** [resumeTokensMap], filled in the order of [resumes]. *)
Definition resumeTokensMapOf (resumes : list Resume) : amap (list str) :=
  fold_left
    (fun m resume => mset m (id resume) (tokenize (extracted_text resume)))
    resumes [].

(** [mapIndex f i xs] is [xs.map(f)] with indices counted from [i]. *)
Fixpoint mapIndex (A B : Type) (f : A -> nat -> B) (i : nat) (xs : list A)
  : list B :=
  match xs with
  | [] => []
  | x :: xs' => f x i :: mapIndex f (S i) xs'
  end.

(** [resumeTokensMap.get(resume.id)!] *)
Definition tokensFor (m : amap (list str)) (resume : Resume) : list str :=
  match mget m (id resume) with Some ts => ts | None => [] end.

(** The [results] array before it is sorted (the second loop). *)
Definition scoreAll (jobPosting : JobPosting) (resumes : list Resume)
  : list Result :=
  let jobTokens := jobTokensOf jobPosting in
  let allTokens :=
    jobTokens :: map (fun resume => tokenize (extracted_text resume)) resumes in
  let resumeTokensMap := resumeTokensMapOf resumes in
  let jobTfidf := calculateTfIdf jobTokens allTokens in
  map (fun resume =>
         let resumeTokens := tokensFor resumeTokensMap resume in
         let resumeTfidf := calculateTfIdf resumeTokens allTokens in
         let similarity := cosineSimilarity jobTfidf resumeTfidf in
         let similarityPercent := round (similarity * 100 * 100) / 100 in
         {| resumeId := id resume;
            similarity := similarityPercent;
            matchedKeywords := findMatchedKeywords jobTokens resumeTokens 10 |})
      resumes.

Definition sortResults (results : list Result) : list Result :=
  sort (fun a b => similarity b - similarity a) results.

Definition insertDataOf (jobPostingId : str) (results : list Result)
  : list Row :=
  mapIndex
    (fun result index =>
       {| job_posting_id := jobPostingId;
          resume_id := resumeId result;
          similarity_score := similarity result;
          matched_keywords := matchedKeywords result;
          ranking := index + 1 |})
    0%nat results.

(** The ranking run proper: from the fetched job posting and resumes to the
    response, [insertError] being the outcome of the insertion. *)
Definition rankingRun (jobPostingId : str) (jobPosting : JobPosting)
  (resumes : list Resume) (insertError : option str) : Response :=
  match resumes with
  | [] => Failure (lit "No resumes found")
  | _ =>
      let results := sortResults (scoreAll jobPosting resumes) in
      let insertData := insertDataOf jobPostingId results in
      match insertError with
      | Some message => Failure message
      | None => Success results insertData (length resumes)
      end
  end.

(** What the handler answers: the reply to an [OPTIONS] request, or the
    response of the run. *)
Inductive Reply : Type :=
| Preflight
| Answered (response : Response).

(** The request handler, for a decoded request body.  [method] is
    [req.method]; the two queries are answered from outside: [jobQuery] and
    [resumeQuery] are [None] when the query reports an error or no data. *)
Definition handler (method : str) (authHeader : option str)
  (matchRequest : MatchRequest)
  (jobQuery : option JobPosting) (resumeQuery : option (list Resume))
  (insertError : option str) : Reply :=
  if str_eqb method (lit "OPTIONS") then Preflight
  else
    Answered
      (if Extract.missing authHeader
       then Failure (lit "Missing authorization header")
       else
         match resumeIds matchRequest with
         | None => Failure (lit "Missing required fields")
         | Some ids =>
             if Extract.isEmpty (jobPostingId matchRequest)
                || (length ids =? 0)%nat
             then Failure (lit "Missing required fields")
             else
               match jobQuery with
               | None => Failure (lit "Job posting not found")
               | Some jobPosting =>
                   match resumeQuery with
                   | None => Failure (lit "No resumes found")
                   | Some resumes =>
                       rankingRun (jobPostingId matchRequest) jobPosting
                                  resumes insertError
                   end
               end
         end).

(** The value the first loop of [calculateTfIdf] leaves for a token, and the
    value its second loop computes for it. *)
Definition tfValueOf (tokens : list str) (token : str) : R :=
  INR (countOf token tokens) * (1 / INR (length tokens)).

Definition idfValueOf (allTokens : list (list str)) (token : str) : R :=
  ln (INR (length allTokens)
      / (INR (length (filter (fun doc => includes doc token) allTokens)) + 1)).

(** *** The weighting in the words of the specification *)

(** [count(t in d) / |tokens(d)|] *)
Definition termFrequency (t : str) (d : list str) : R :=
  INR (count_occ str_eq_dec d t) / INR (length d).

(** The number of corpus documents whose token list contains [t]. *)
Definition documentFrequency (t : str) (corpus : list (list str)) : nat :=
  length (filter (fun doc => if in_dec str_eq_dec t doc then true else false)
                 corpus).

(** [ln(|corpus| / (documentFrequency(t) + 1))] *)
Definition inverseDocumentFrequency (t : str) (corpus : list (list str))
  : R :=
  ln (INR (length corpus) / INR (documentFrequency t corpus + 1)).

(** The sum of [f] over a list of keys. *)
Definition sumOver (f : str -> R) (keys : list str) : R :=
  fold_right (fun key acc => f key + acc) 0 keys.

(** A vector all of whose weights are zero. *)
Definition zeroVector (vec : amap R) : Prop :=
  Forall (fun entry => snd entry = 0) vec.

End Similarity.

(** ** Requirements of a job description (the job-processing function) *)

Module Requirements.

(** [word] at the head of [s], letters compared without regard to case;
    gives what follows it. *)
Fixpoint stripPrefix (word s : str) : option str :=
  match word with
  | [] => Some s
  | w :: word' =>
      match s with
      | c :: s' =>
          if Regex.literal true w c then stripPrefix word' s' else None
      | [] => None
      end
  end.

Definition colon (s : str) : option str :=
  match s with
  | c :: s' => if Regex.literal true ":"%char c then Some s' else None
  | [] => None
  end.

(** The head of a pattern, [word] then [s?] then [:], at the head of [s]:
    the optional [s] is tried first and given back if no colon follows. *)
Definition headerAt (word s : str) : option str :=
  match stripPrefix word s with
  | None => None
  | Some rest =>
      let withS :=
        match rest with
        | c :: rest' =>
            if Regex.literal true "s"%char c then colon rest' else None
        | [] => None
        end in
      match withS with
      | Some after => Some after
      | None => colon rest
      end
  end.

Definition newline : ascii := ascii_of_nat 10.

Definition isSome (A : Type) (o : option A) : bool :=
  match o with Some _ => true | None => false end.

(** The lookahead [(?=\n\n|word1|word2|$)] at the head of [s]. *)
Definition stopsHere (stops : list str) (s : str) : bool :=
  isSome (stripPrefix [newline; newline] s)
  || existsb (fun word => isSome (stripPrefix word s)) stops
  || Extract.isEmpty s.

(** The group [([\s\S]*?)] before that lookahead: the shortest text after
    which the lookahead holds. *)
Fixpoint lazyUntil (stops : list str) (s : str) : str :=
  if stopsHere stops s then []
  else
    match s with
    | c :: s' => c :: lazyUntil stops s'
    | [] => []
    end.

(** [text.match(pattern)], as [match[1]]: the group of the first place
    where the head of the pattern is found. *)
Fixpoint findSection (word : str) (stops : list str) (s : str)
  : option str :=
  match headerAt word s with
  | Some rest => Some (lazyUntil stops rest)
  | None =>
      match s with
      | [] => None
      | _ :: s' => findSection word stops s'
      end
  end.

(** The three patterns: the word before [s?:] and the words of the
    lookahead. *)
Definition patterns : list (str * list str) :=
  [ (lit "requirement", [lit "responsibilities"; lit "qualifications"]);
    (lit "qualification", [lit "responsibilities"; lit "requirements"]);
    (lit "required skill", [lit "responsibilities"; lit "qualifications"]) ].

(** [xs.join(sep)] *)
Fixpoint join (sep : str) (xs : list str) : str :=
  match xs with
  | [] => []
  | [x] => x
  | x :: xs' => x ++ sep ++ join sep xs'
  end.

(** The sections collected by the loop over the patterns. *)
Definition sectionsOf (text : str) : list str :=
  fold_left
    (fun requirementSections pattern =>
       match findSection (fst pattern) (snd pattern) text with
       | Some group =>
           if Extract.isEmpty group then requirementSections
           else requirementSections ++ [trim group]
       | None => requirementSections
       end)
    patterns [].

Definition extractRequirements (text : str) : str :=
  let joined := join [newline; newline] (sectionsOf text) in
  if Extract.isEmpty joined then firstn 500 text else joined.

Record JobData : Type := {
  title : str;
  description : str;
  userId : str
}.

(** The row the handler inserts. *)
Record JobRow : Type := {
  row_title : str;
  row_description : str;
  row_requirements : str;
  row_created_by : str;
  row_status : str
}.

(** What the job handler answers: the reply to an [OPTIONS] request, the
    row inserted, or a failure with its message. *)
Inductive JobReply : Type :=
| JobPreflight
| JobStored (row : JobRow)
| JobFailed (message : str).

(** The whole handler, for a decoded request body: [method] is [req.method]
    and [insertError] the error the insertion reports, if any. *)
Definition processJobDescription (method : str) (authHeader : option str)
  (jobData : JobData) (insertError : option str) : JobReply :=
  if str_eqb method (lit "OPTIONS") then JobPreflight
  else
    if Extract.missing authHeader
    then JobFailed (lit "Missing authorization header")
    else
      if Extract.isEmpty (description jobData)
         || Extract.isEmpty (title jobData)
      then JobFailed (lit "Missing required fields: title and description")
      else
        let requirements := extractRequirements (description jobData) in
        match insertError with
        | Some message => JobFailed message
        | None =>
            JobStored {| row_title := title jobData;
                         row_description := description jobData;
                         row_requirements := requirements;
                         row_created_by := userId jobData;
                         row_status := lit "active" |}
        end.

End Requirements.

(** ** The shape of a match *)

Module RegexShape.
Import Regex.

Definition classOf (item : ritem) (c : ascii) : bool :=
  match item with
  | One cls => cls c
  | Many _ cls => cls c
  | WordB => false
  end.

(** A character that some item of the expression accepts. *)
Definition anyClass (items : regex) (c : ascii) : bool :=
  existsb (fun item => classOf item c) items.

Definition minWidth (item : ritem) : nat :=
  match item with
  | One _ => 1
  | Many min _ => min
  | WordB => 0
  end.

(** The length of the shortest text the expression can match. *)
Definition minLength (items : regex) : nat :=
  fold_right (fun item n => (minWidth item + n)%nat) 0%nat items.

(** A match of [n] characters at the head of [s]. *)
Definition matchShape (items : regex) (s : str) (n : nat) : Prop :=
  (n <= length s)%nat
  /\ (minLength items <= n)%nat
  /\ Forall (fun c => anyClass items c = true) (firstn n s)
  /\ forall cls, In (One cls) items ->
                 exists c, In c (firstn n s) /\ cls c = true.

(** The loop of a repetition inside [matchHere], with what follows the
    repetition as [next]. *)
Section ManyFrom.
Variable next : option ascii -> str -> option nat.
Variable min : nat.
Variable cls : ascii -> bool.

Fixpoint manyFrom (n : nat) (prev : option ascii) (s : str) {struct s}
  : option nat :=
  let stop := if (min <=? n)%nat then next prev s else None in
  match s with
  | c :: s' =>
      if cls c then
        match manyFrom (S n) (Some c) s' with
        | Some k => Some (S k)
        | None => stop
        end
      else stop
  | [] => stop
  end.

End ManyFrom.

End RegexShape.

Module ExtractShape.

(** The characters an address found by [extractEmail] is made of. *)
Definition emailChar (c : ascii) : bool :=
  isLetter c || isDigit c || Extract.isOneOf "._%+-@" c.

(** [e] occurs in [text]. *)
Definition occursIn (e text : str) : Prop :=
  exists before after, text = before ++ e ++ after.

End ExtractShape.

(** ** What a reported result looks like *)

Module Reported.
Import Similarity.

(** A score between 0 and 100 with two decimals, and at most ten matched
    keywords, all of them tokens of the job posting. *)
Definition wellFormed (jobPosting : JobPosting) (r : Result) : Prop :=
  0 <= similarity r <= 100
  /\ (exists z, similarity r = IZR z / 100)
  /\ (length (matchedKeywords r) <= 10)%nat
  /\ (forall k, In k (matchedKeywords r) -> In k (jobTokensOf jobPosting)).

End Reported.

(** * Properties *)

(** ** Characters and strings *)

Lemma str_eqb_eq (a b : str) : str_eqb a b = true <-> a = b.
Proof.
  revert b; induction a as [|x a IH]; intros [|y b]; simpl;
    try (split; [discriminate | discriminate]); try tauto.
  rewrite andb_true_iff, Ascii.eqb_eq, IH.
  split; [intros [-> ->]; reflexivity | intros H; inversion H; auto].
Qed.

Lemma str_eqb_refl (a : str) : str_eqb a a = true.
Proof. apply str_eqb_eq; reflexivity. Qed.

Lemma str_eqb_neq (a b : str) : str_eqb a b = false <-> a <> b.
Proof.
  rewrite <- str_eqb_eq. destruct (str_eqb a b); split; congruence.
Qed.

Lemma str_eqb_sym (a b : str) : str_eqb a b = str_eqb b a.
Proof.
  destruct (str_eqb a b) eqn:E.
  - apply str_eqb_eq in E; subst. symmetry; apply str_eqb_refl.
  - destruct (str_eqb b a) eqn:E'; auto.
    apply str_eqb_eq in E'; subst. rewrite str_eqb_refl in E; discriminate.
Qed.

(** Facts about the 256 characters are settled by enumeration. *)
Ltac by_cases_on_char c :=
  destruct c as [[] [] [] [] [] [] [] []]; vm_compute;
  try reflexivity; try discriminate; auto.

Lemma lower_alnum_not_upper (c : ascii) :
  (isLowerAz c || isDigit c) = true -> isUpperCase c = false.
Proof. by_cases_on_char c. Qed.

Lemma lower_alnum_not_space (c : ascii) :
  (isLowerAz c || isDigit c) = true -> isSpace c = false.
Proof. by_cases_on_char c. Qed.

Lemma lowerChar_not_upper (c : ascii) : isUpperCase (lowerChar c) = false.
Proof. by_cases_on_char c. Qed.

Lemma space_isSpace : isSpace space = true.
Proof. reflexivity. Qed.

Module TokenizerFacts.
Import Tokenizer.

(** What is kept and is not white space is a lower-case letter or digit. *)
Lemma replaceOther_chars (s : str) :
  Forall (fun c => isSpace c = false -> (isLowerAz c || isDigit c) = true)
         (replaceOther s).
Proof.
  unfold replaceOther. apply Forall_forall. intros c Hin.
  apply in_map_iff in Hin. destruct Hin as [x [<- _]].
  unfold keptChar. destruct (isLowerAz x || isDigit x) eqn:E; simpl.
  - intros _. exact E.
  - destruct (isSpace x) eqn:Es; [congruence|]. rewrite space_isSpace.
    discriminate.
Qed.

Section Pieces.
Variable P : ascii -> Prop.

Lemma splitSpaces_pieces (s : str) :
  Forall (fun c => isSpace c = false -> P c) s ->
  forall inRun cur, Forall P cur ->
  Forall (Forall P) (splitSpaces inRun cur s).
Proof.
  induction 1 as [|c s Hc Hs IH]; intros inRun cur Hcur; simpl.
  - constructor; [|constructor]. apply Forall_rev; assumption.
  - destruct (isSpace c) eqn:Ec.
    + destruct inRun; [apply IH; assumption|].
      constructor; [apply Forall_rev; assumption | apply IH; constructor].
    + apply IH. constructor; auto.
Qed.

End Pieces.

Lemma splitSpaces_wordsOf (f : str -> bool) (s : str) :
  f [] = false ->
  forall inRun cur, (inRun = true -> cur = []) ->
  filter f (splitSpaces inRun cur s) = filter f (wordsOf cur s).
Proof.
  intros Hf. induction s as [|c s IH]; intros inRun cur Hinv; simpl.
  - destruct cur as [|x cur]; simpl; [rewrite Hf; reflexivity|reflexivity].
  - destruct (isSpace c).
    + destruct inRun.
      * rewrite (Hinv eq_refl). apply IH; auto.
      * destruct cur as [|x cur].
        -- simpl. rewrite Hf. apply IH; auto.
        -- cbn [filter]. rewrite (IH true []); auto.
    + apply IH. discriminate.
Qed.

(** The tables of the specification against the classes of the code. *)
Lemma specSpace_isSpace (c : ascii) : specSpace c = isSpace c.
Proof. by_cases_on_char c. Qed.

Lemma spec_char (c : ascii) :
  specReplace (specLower c)
  = (if keptChar (lowerChar c) then lowerChar c else space).
Proof. by_cases_on_char c. Qed.

Lemma specWords_wordsOf (s : str) :
  forall cur, specWords cur s = wordsOf cur s.
Proof.
  induction s as [|c s IH]; intros cur; simpl; [reflexivity|].
  rewrite specSpace_isSpace, !IH. reflexivity.
Qed.

Lemma spec_text (text : str) :
  map specReplace (map specLower text) = replaceOther (toLowerCase text).
Proof.
  unfold replaceOther, toLowerCase. rewrite !map_map.
  apply map_ext. intros c. apply spec_char.
Qed.

End TokenizerFacts.

(** C8.  [tokenize] is the tokenizer the specification words: on every text
    it returns the maximal runs of characters other than white space of the
    lower-cased text in which each character outside [[a-z0-9\s]] was
    replaced by one space, without the runs of length at most two.  Hence
    every token has at least three characters, each of them in [[a-z0-9]]
    and none upper-case, and the empty text has no token. *)
Theorem tokenize_spec_and_shape (text : str) :
  Tokenizer.tokenize text = Tokenizer.tokenize_spec text
  /\ Forall (fun token =>
               (3 <= length token)%nat
               /\ Forall (fun c => (isLowerAz c || isDigit c) = true
                                   /\ isUpperCase c = false) token)
            (Tokenizer.tokenize text)
  /\ Tokenizer.tokenize [] = [].
Proof.
  split; [|split].
  - unfold Tokenizer.tokenize, Tokenizer.tokenize_spec.
    rewrite TokenizerFacts.spec_text, TokenizerFacts.specWords_wordsOf.
    rewrite (TokenizerFacts.splitSpaces_wordsOf
               (fun word => 2 <? length word)%nat); auto.
    apply filter_ext. intros w.
    destruct (Nat.ltb_spec 2 (length w)), (Nat.leb_spec (length w) 2);
      simpl; auto; lia.
  - unfold Tokenizer.tokenize. apply Forall_forall. intros w Hw.
    apply filter_In in Hw. destruct Hw as [Hin Hlen].
    apply Nat.ltb_lt in Hlen. split; [lia|].
    pose proof (TokenizerFacts.splitSpaces_pieces
                  (P := fun c => (isLowerAz c || isDigit c) = true)
                  (TokenizerFacts.replaceOther_chars (toLowerCase text))
                  false (cur := []) (Forall_nil _)) as Hall.
    rewrite Forall_forall in Hall. specialize (Hall w Hin).
    eapply Forall_impl; [|exact Hall].
    intros c Hc. split; [exact Hc | apply lower_alnum_not_upper; exact Hc].
  - reflexivity.
Qed.

Lemma tokenize_spec_and_shape_witness :
  Tokenizer.tokenize (lit "React Developer, Node.js: 5+ yrs (C# / SQL) at X")
  = [lit "react"; lit "developer"; lit "node"; lit "yrs"; lit "sql"]
  /\ Tokenizer.tokenize_spec
       (lit "React Developer, Node.js: 5+ yrs (C# / SQL) at X")
     = [lit "react"; lit "developer"; lit "node"; lit "yrs"; lit "sql"].
Proof.
  destruct (tokenize_spec_and_shape
              (lit "React Developer, Node.js: 5+ yrs (C# / SQL) at X"))
    as [Heq _].
  rewrite Heq. split; vm_compute; reflexivity.
Defined.

(** ** Trimming and splitting *)

Module StringFacts.

Lemma dropSpaces_head (s : str) : headNotSpace (dropSpaces s).
Proof.
  induction s as [|c s IH]; simpl; auto.
  destruct (isSpace c) eqn:E; simpl; auto.
Qed.

Lemma dropSpaces_fixed (s : str) : headNotSpace s -> dropSpaces s = s.
Proof. destruct s as [|c s]; simpl; auto. intros ->; reflexivity. Qed.

Lemma dropSpaces_suffix (s : str) : exists p, s = p ++ dropSpaces s.
Proof.
  induction s as [|c s [p IH]]; simpl.
  - exists []; reflexivity.
  - destruct (isSpace c).
    + exists (c :: p). simpl. f_equal. exact IH.
    + exists []. reflexivity.
Qed.

Lemma headNotSpace_app (a b : str) :
  headNotSpace (a ++ b) -> headNotSpace a.
Proof. destruct a; simpl; auto. Qed.

Lemma trim_ends (s : str) :
  headNotSpace (trim s) /\ headNotSpace (rev (trim s)).
Proof.
  unfold trim. rewrite rev_involutive. split; [|apply dropSpaces_head].
  destruct (dropSpaces_suffix (rev (dropSpaces s))) as [p Hp].
  apply (headNotSpace_app _ (rev p)). rewrite <- rev_app_distr, <- Hp.
  rewrite rev_involutive. apply dropSpaces_head.
Qed.

Lemma trim_fixed (s : str) :
  headNotSpace s -> headNotSpace (rev s) -> trim s = s.
Proof.
  intros H1 H2. unfold trim.
  rewrite (dropSpaces_fixed _ H1), (dropSpaces_fixed _ H2).
  apply rev_involutive.
Qed.

Lemma trim_trim (s : str) : trim (trim s) = trim s.
Proof. destruct (trim_ends s). apply trim_fixed; assumption. Qed.

Lemma dropSpaces_Forall (P : ascii -> Prop) (s : str) :
  Forall P s -> Forall P (dropSpaces s).
Proof.
  induction 1 as [|c s Hc Hs IH]; simpl; auto.
  destruct (isSpace c); auto.
Qed.

Lemma trim_Forall (P : ascii -> Prop) (s : str) :
  Forall P s -> Forall P (trim s).
Proof.
  intros H. unfold trim.
  apply Forall_rev, dropSpaces_Forall, Forall_rev, dropSpaces_Forall, H.
Qed.

Lemma splitChar_absent (sep : ascii) (s : str) :
  ~ In sep s -> forall cur, splitChar sep cur s = [rev cur ++ s].
Proof.
  induction s as [|c s IH]; intros Hn cur; simpl.
  - rewrite app_nil_r; reflexivity.
  - destruct (Ascii.eqb_spec c sep) as [->|Hne].
    + exfalso; apply Hn; left; reflexivity.
    + rewrite IH by (intros Hin; apply Hn; right; exact Hin).
      simpl. rewrite <- app_assoc. reflexivity.
Qed.

End StringFacts.

Module RegexFacts.
Import Regex.

(** A single class is found where the first character of the class is. *)
Lemma test_One (cls : ascii -> bool) (s : str) :
  test [One cls] s = existsb cls s.
Proof.
  unfold test. generalize (@None ascii).
  induction s as [|c s IH]; intros prev; simpl; auto.
  destruct (cls c); simpl; auto.
  specialize (IH (Some c)).
  destruct (search [One cls] (Some c) s) as [[i n]|]; auto.
Qed.

End RegexFacts.

Module CleanFacts.
Import Extract StringFacts.

Lemma collapseSpaces_onlySpaces (s : str) :
  forall inRun, onlySpaces (collapseSpaces inRun s).
Proof.
  unfold onlySpaces.
  induction s as [|c s IH]; intros inRun; simpl; [constructor|].
  destruct (isSpace c) eqn:E.
  - destruct inRun; [apply IH|]. constructor; [reflexivity | apply IH].
  - constructor; [congruence | apply IH].
Qed.

Lemma cleanText_onlySpaces (text : str) : onlySpaces (cleanText text).
Proof.
  unfold cleanText, onlySpaces. apply trim_Forall.
  apply Forall_forall. intros c Hin.
  apply in_map_iff in Hin. destruct Hin as [x [<- Hx]].
  pose proof (collapseSpaces_onlySpaces text false) as Hall.
  unfold onlySpaces in Hall. rewrite Forall_forall in Hall.
  destruct (cleanKept x); [apply Hall; exact Hx | reflexivity].
Qed.

Lemma cleanText_no_newline (text : str) : ~ In newline (cleanText text).
Proof.
  intros Hin.
  pose proof (cleanText_onlySpaces text) as Hall.
  unfold onlySpaces in Hall. rewrite Forall_forall in Hall.
  specialize (Hall _ Hin eq_refl). discriminate.
Qed.

Lemma cleanText_trimmed (text : str) :
  trim (cleanText text) = cleanText text.
Proof. unfold cleanText. apply trim_trim. Qed.

(** Name extraction on a text that is one trimmed line. *)
Lemma extractName_one_line (s : str) :
  ~ In newline s -> trim s = s ->
  extractName s =
    if (0 <? length s)%nat && (length s <? 50)%nat && negb (existsb isDigit s)
    then Some s else None.
Proof.
  intros Hnl Htrim. unfold extractName.
  rewrite (@splitChar_absent newline s Hnl). simpl. rewrite Htrim.
  destruct (0 <? length s)%nat eqn:E; simpl; [|reflexivity].
  rewrite Htrim, RegexFacts.test_One. reflexivity.
Qed.

End CleanFacts.

(** C10.  In the resume pipeline name extraction runs on the cleaned text,
    which holds no line break (every white-space run became one space), so
    the first non-blank line is the whole cleaned text: the name is that
    text when it is not empty, shorter than 50 characters and without a
    digit, and absent otherwise.  A name is thus returned only for a
    cleaned text under 50 characters with no digit, and never for a cleaned
    text of 50 characters or more. *)
Theorem extractName_after_cleanText (content : str) :
  let cleaned := Extract.cleanText content in
  ~ In Extract.newline cleaned
  /\ Extract.extractName cleaned =
       (if (0 <? length cleaned)%nat && (length cleaned <? 50)%nat
           && negb (existsb isDigit cleaned)
        then Some cleaned else None)
  /\ (forall name, Extract.extractName cleaned = Some name ->
        name = cleaned /\ (length cleaned < 50)%nat
        /\ existsb isDigit cleaned = false)
  /\ ((50 <= length cleaned)%nat -> Extract.extractName cleaned = None).
Proof.
  intros cleaned.
  assert (Hnl : ~ In Extract.newline cleaned)
    by apply CleanFacts.cleanText_no_newline.
  assert (Heq := @CleanFacts.extractName_one_line cleaned Hnl
                   (CleanFacts.cleanText_trimmed content)).
  fold cleaned in Heq.
  split; [exact Hnl|]. split; [exact Heq|]. split.
  - intros name. rewrite Heq.
    destruct (0 <? length cleaned)%nat; simpl; [|discriminate].
    destruct (Nat.ltb_spec (length cleaned) 50); simpl; [|discriminate].
    destruct (existsb isDigit cleaned); simpl; [discriminate|].
    intros Hsome; inversion Hsome; auto.
  - intros Hlen. rewrite Heq.
    destruct (Nat.ltb_spec (length cleaned) 50); [lia|].
    rewrite andb_false_r. reflexivity.
Qed.

(** ** Sets built from arrays *)

Module SetFacts.
Import Extract.

Lemma existsb_str_eqb (x : str) (l : list str) :
  existsb (str_eqb x) l = true <-> In x l.
Proof.
  rewrite existsb_exists. split.
  - intros [y [Hy E]]. apply str_eqb_eq in E. subst; exact Hy.
  - intros H. exists x. split; [exact H | apply str_eqb_refl].
Qed.

Lemma setOf_fold_In (x : str) (xs : list str) :
  forall seen,
    In x (fold_left
            (fun seen x =>
               if existsb (str_eqb x) seen then seen else seen ++ [x])
            xs seen)
    <-> In x seen \/ In x xs.
Proof.
  induction xs as [|y xs IH]; intros seen; simpl; [tauto|].
  rewrite IH. destruct (existsb (str_eqb y) seen) eqn:E.
  - apply existsb_str_eqb in E. split; [tauto|].
    intros [H|[->|H]]; auto.
  - rewrite in_app_iff. simpl. tauto.
Qed.

Lemma setOf_In (x : str) (xs : list str) : In x (setOf xs) <-> In x xs.
Proof. unfold setOf. rewrite setOf_fold_In. simpl. tauto. Qed.

End SetFacts.

Module SkillFacts.
Import Extract.

Lemma foundSkills_In (lowerText x : str) (vocabulary : list str) :
  forall found,
    In x (fold_left
            (fun found skill =>
               if Regex.test (skillRegex skill) lowerText
               then found ++ [unescapePlus skill] else found)
            vocabulary found) ->
    In x found \/ In x (map unescapePlus vocabulary).
Proof.
  induction vocabulary as [|skill vocabulary IH]; intros found; simpl; auto.
  intros H. apply IH in H. destruct H as [H|H]; auto.
  destruct (Regex.test (skillRegex skill) lowerText); auto.
  apply in_app_iff in H. simpl in H. tauto.
Qed.

End SkillFacts.

(** Every skill returned is a vocabulary entry after unescaping. *)
Lemma extractSkillsFrom_subset (vocabulary : list str) (text x : str) :
  In x (Extract.extractSkillsFrom vocabulary text) ->
  In x (map Extract.unescapePlus vocabulary).
Proof.
  unfold Extract.extractSkillsFrom. intros Hin.
  rewrite SetFacts.setOf_In in Hin.
  apply SkillFacts.foundSkills_In in Hin.
  destruct Hin as [[]|Hin]. exact Hin.
Qed.

Lemma extractSkills_eq (text : str) :
  Extract.extractSkills text
  = Extract.extractSkillsFrom Extract.commonSkills text.
Proof. reflexivity. Qed.

Lemma cpp_not_in_vocabulary :
  forallb (fun s => negb (str_eqb s (lit "c++")))
          (map Extract.unescapePlus Extract.commonSkills) = true.
Proof. vm_compute; reflexivity. Qed.

(** C7.  The label [c++] is never returned.  The vocabulary entry is the
    pattern [c\+\+]; the expression that should turn it back into [c++]
    looks for two backslashes before a plus sign and so leaves the entry as
    it is, and the word boundary required after the last plus sign fails
    wherever [c++] ends a word.  On the text "I use c++ daily" no skill is
    found at all; on "c++x" the entry matches and is returned as [c\+\+]. *)
Theorem extractSkills_never_cpp :
  (forall text, ~ In (lit "c++") (Extract.extractSkills text))
  /\ Extract.extractSkills (lit "I use c++ daily") = []
  /\ Regex.test (Extract.skillRegex (lit "c\+\+")) (lit "c++") = false
  /\ Extract.extractSkills (lit "c++x") = [lit "c\+\+"]
  /\ Extract.extractSkills (lit "Java and JavaScript") =
       [lit "javascript"; lit "java"]
  /\ Extract.extractSkills (lit "JavaScript") = [lit "javascript"].
Proof.
  split; [|repeat apply conj; vm_compute; reflexivity].
  intros text Hin. rewrite extractSkills_eq in Hin.
  apply extractSkillsFrom_subset in Hin.
  pose proof cpp_not_in_vocabulary as Hall.
  rewrite forallb_forall in Hall. specialize (Hall _ Hin).
  rewrite str_eqb_refl in Hall. discriminate.
Qed.

(** C9.  On "Contact: jane.doe+hr@example.co.uk for details" the resume
    handler stores the address [hr@example.co.uk]: it looks for the address
    in the cleaned text, where the plus sign has become a space.  Run on
    the text itself, [extractEmail] finds [jane.doe+hr@example.co.uk]. *)
Theorem extractEmail_after_cleanText_loses_plus :
  let text := lit "Contact: jane.doe+hr@example.co.uk for details" in
  Extract.cleanText text = lit "Contact  jane.doe hr@example.co.uk for details"
  /\ Extract.extractEmail (Extract.cleanText text)
     = Some (lit "hr@example.co.uk")
  /\ Extract.extractEmail text = Some (lit "jane.doe+hr@example.co.uk")
  /\ match Extract.processResume (Some (lit "Bearer token"))
             {| Extract.filename := lit "cv.txt";
                Extract.content := text;
                Extract.userId := lit "u1" |}
     with
     | inl stored => Extract.candidate_email stored
     | inr _ => None
     end = Some (lit "hr@example.co.uk").
Proof.
  intros text. repeat apply conj; vm_compute; reflexivity.
Qed.

(** ** Association maps *)

Section MapFacts.
Variable V : Type.
Implicit Types (m : amap V) (k : str) (v : V).

Lemma mget_mset_same m k v : mget (mset m k v) k = Some v.
Proof.
  induction m as [|[k' v'] m IH]; simpl.
  - rewrite str_eqb_refl; reflexivity.
  - destruct (str_eqb k k') eqn:E; simpl; rewrite E; auto.
Qed.

Lemma mget_mset_other m k k' v :
  k <> k' -> mget (mset m k' v) k = mget m k.
Proof.
  intros Hne. induction m as [|[k0 v0] m IH]; simpl.
  - apply str_eqb_neq in Hne. rewrite Hne; reflexivity.
  - destruct (str_eqb k' k0) eqn:E; simpl.
    + apply str_eqb_eq in E; subst k0.
      apply str_eqb_neq in Hne. rewrite Hne; reflexivity.
    + destruct (str_eqb k k0); auto.
Qed.

Lemma mkeys_mset m k k' v :
  In k (mkeys (mset m k' v)) <-> k = k' \/ In k (mkeys m).
Proof.
  unfold mkeys. induction m as [|[k0 v0] m IH]; simpl.
  - intuition.
  - destruct (str_eqb k' k0) eqn:E; simpl.
    + apply str_eqb_eq in E; subst k0. intuition.
    + rewrite IH. intuition.
Qed.

Lemma mget_none m k : mget m k = None <-> ~ In k (mkeys m).
Proof.
  unfold mkeys. induction m as [|[k0 v0] m IH]; simpl.
  - intuition.
  - destruct (str_eqb k k0) eqn:E.
    + apply str_eqb_eq in E; subst. split; [discriminate|].
      intros H; exfalso; apply H; auto.
    + apply str_eqb_neq in E. rewrite IH. intuition.
Qed.

Lemma mset_NoDup m k v : NoDup (mkeys m) -> NoDup (mkeys (mset m k v)).
Proof.
  unfold mkeys. induction m as [|[k0 v0] m IH]; simpl; intros Hnd.
  - constructor; [intros []|constructor].
  - inversion Hnd as [|? ? Hnotin Hnd']; subst.
    destruct (str_eqb k k0) eqn:E; simpl.
    + constructor; assumption.
    + constructor; [|apply IH; assumption].
      intros Hin. apply (mkeys_mset m k0 k v) in Hin.
      destruct Hin as [->|Hin]; [|contradiction].
      rewrite str_eqb_refl in E; discriminate.
Qed.

End MapFacts.

(** ** Term weighting *)

Module TfIdfFacts.
Import Similarity.

Lemma includes_In (doc : list str) (token : str) :
  includes doc token = true <-> In token doc.
Proof. apply SetFacts.existsb_str_eqb. Qed.

Lemma countOf_cons (k t : str) (ts : list str) :
  countOf k (t :: ts)
  = ((if str_eqb t k then 1 else 0) + countOf k ts)%nat.
Proof. unfold countOf. simpl. destruct (str_eqb t k); reflexivity. Qed.

Lemma countOf_count_occ (k : str) (ts : list str) :
  countOf k ts = count_occ str_eq_dec ts k.
Proof.
  induction ts as [|t ts IH]; [reflexivity|].
  rewrite countOf_cons. simpl. rewrite IH.
  destruct (str_eq_dec t k) as [->|Hne].
  - rewrite str_eqb_refl; reflexivity.
  - apply str_eqb_neq in Hne. rewrite Hne; reflexivity.
Qed.

Lemma countOf_pos (k : str) (ts : list str) :
  In k ts -> (0 < countOf k ts)%nat.
Proof.
  rewrite countOf_count_occ. apply count_occ_In.
Qed.

Section Loops.
Variable n : R.

(** The first loop: each occurrence adds [1 / n]. *)
Lemma tf_loop_value (tokens : list str) :
  forall (m : amap R) (k : str),
    orZero (mget (fold_left
                    (fun tf token =>
                       mset tf token (orZero (mget tf token) + 1 / n))
                    tokens m) k)
    = orZero (mget m k) + INR (countOf k tokens) * (1 / n).
Proof.
  induction tokens as [|t tokens IH]; intros m k.
  - unfold countOf; simpl. ring.
  - cbn [fold_left]. rewrite IH, countOf_cons.
    destruct (str_eqb t k) eqn:E.
    + apply str_eqb_eq in E; subst t.
      rewrite mget_mset_same. cbn [orZero].
      rewrite plus_INR. simpl INR. ring.
    + rewrite mget_mset_other
        by (intros ->; rewrite str_eqb_refl in E; discriminate).
      simpl. ring.
Qed.

Lemma tf_loop_keys (tokens : list str) :
  forall (m : amap R) (k : str),
    In k (mkeys (fold_left
                   (fun tf token =>
                      mset tf token (orZero (mget tf token) + 1 / n))
                   tokens m))
    <-> In k (mkeys m) \/ In k tokens.
Proof.
  induction tokens as [|t tokens IH]; intros m k; cbn [fold_left].
  - simpl; tauto.
  - rewrite IH, mkeys_mset. simpl. intuition.
Qed.

Lemma tf_loop_NoDup (tokens : list str) :
  forall m : amap R,
    NoDup (mkeys m) ->
    NoDup (mkeys (fold_left
                    (fun tf token =>
                       mset tf token (orZero (mget tf token) + 1 / n))
                    tokens m)).
Proof.
  induction tokens as [|t tokens IH]; intros m Hnd; cbn [fold_left]; auto.
  apply IH, mset_NoDup, Hnd.
Qed.

(** The second loop stores [idfOf token] for every token of the list. *)
Lemma idf_loop_value (idfOf : str -> R) (tokens : list str) (k : str) :
  forall m : amap R,
    In k tokens \/ mget m k = Some (idfOf k) ->
    mget (fold_left (fun idf token => mset idf token (idfOf token)) tokens m) k
    = Some (idfOf k).
Proof.
  induction tokens as [|t tokens IH]; intros m H; cbn [fold_left].
  - destruct H as [[]|H]; exact H.
  - apply IH.
    destruct (str_eqb t k) eqn:E.
    + apply str_eqb_eq in E; subst t. right. apply mget_mset_same.
    + assert (Hne : k <> t)
        by (intros ->; rewrite str_eqb_refl in E; discriminate).
      destruct H as [[->|H]|H]; [congruence | left; exact H |].
      right. rewrite mget_mset_other; assumption.
Qed.

(** The third loop, over the entries of a map with distinct keys. *)
Lemma tfidf_loop_value (idf : amap R) (entries : amap R) :
  forall (m : amap R) (k : str),
    NoDup (mkeys entries) ->
    mget (fold_left
            (fun tfidf entry =>
               let '(token, tfValue) := entry in
               mset tfidf token (tfValue * orZero (mget idf token)))
            entries m) k
    = match mget entries k with
      | Some v => Some (v * orZero (mget idf k))
      | None => mget m k
      end.
Proof.
  induction entries as [|[k' v'] entries IH]; intros m k Hnd.
  - reflexivity.
  - cbn [fold_left]. inversion Hnd as [|? ? Hnotin Hnd']; subst.
    rewrite IH by assumption. cbn [mget].
    destruct (str_eqb k k') eqn:E.
    + apply str_eqb_eq in E; subst k'.
      apply mget_none in Hnotin. rewrite Hnotin.
      apply mget_mset_same.
    + destruct (mget entries k); [reflexivity|].
      apply mget_mset_other.
      intros ->; rewrite str_eqb_refl in E; discriminate.
Qed.

End Loops.

(** The entry of the computed vector, for any key. *)
Lemma calculateTfIdf_get (tokens : list str) (allTokens : list (list str))
  (k : str) :
  mget (calculateTfIdf tokens allTokens) k
  = if includes tokens k
    then Some (tfValueOf tokens k * idfValueOf allTokens k)
    else None.
Proof.
  unfold calculateTfIdf. cbv zeta.
  rewrite tfidf_loop_value by (apply tf_loop_NoDup; constructor).
  set (tf := fold_left
               (fun tf token => mset tf token (orZero (mget tf token) + _))
               tokens []).
  destruct (includes tokens k) eqn:Hin.
  - apply includes_In in Hin.
    assert (Hkey : In k (mkeys tf))
      by (apply (proj2 (tf_loop_keys (INR (length tokens)) tokens [] k));
          right; exact Hin).
    pose proof (tf_loop_value (INR (length tokens)) tokens [] k) as Hv.
    fold tf in Hv.
    destruct (mget tf k) as [v|] eqn:Hget.
    + pose proof (idf_loop_value (idfValueOf allTokens) tokens k []
                    (or_introl Hin)) as Hidf.
      unfold idfValueOf in Hidf. rewrite Hidf.
      cbn [orZero] in *. rewrite Hv. unfold tfValueOf, idfValueOf.
      cbn [mget orZero]. f_equal. ring.
    + apply mget_none in Hget. contradiction.
  - assert (Hnot : ~ In k (mkeys tf)).
    { intros Hkey.
      apply (proj1 (tf_loop_keys (INR (length tokens)) tokens [] k)) in Hkey.
      destruct Hkey as [[]|Hkey].
      apply includes_In in Hkey. congruence. }
    apply mget_none in Hnot. rewrite Hnot. reflexivity.
Qed.

Lemma calculateTfIdf_orZero (tokens : list str)
  (allTokens : list (list str)) (k : str) :
  orZero (mget (calculateTfIdf tokens allTokens) k)
  = tfValueOf tokens k * idfValueOf allTokens k.
Proof.
  rewrite calculateTfIdf_get.
  destruct (includes tokens k) eqn:Hin; [reflexivity|].
  unfold tfValueOf.
  assert (Hc : countOf k tokens = 0%nat).
  { rewrite countOf_count_occ. apply count_occ_not_In.
    intros H. apply includes_In in H. congruence. }
  rewrite Hc. simpl. ring.
Qed.

Lemma tfValueOf_termFrequency (tokens : list str) (k : str) :
  tfValueOf tokens k = termFrequency k tokens.
Proof.
  unfold tfValueOf, termFrequency. rewrite countOf_count_occ.
  unfold Rdiv. ring.
Qed.

Lemma docs_with_token (allTokens : list (list str)) (k : str) :
  length (filter (fun doc => includes doc k) allTokens)
  = documentFrequency k allTokens.
Proof.
  unfold documentFrequency. f_equal. apply filter_ext. intros doc.
  destruct (in_dec str_eq_dec k doc) as [Hin|Hnot].
  - apply includes_In; exact Hin.
  - destruct (includes doc k) eqn:E; [|reflexivity].
    apply includes_In in E. contradiction.
Qed.

Lemma idfValueOf_inverseDocumentFrequency (allTokens : list (list str))
  (k : str) :
  idfValueOf allTokens k = inverseDocumentFrequency k allTokens.
Proof.
  unfold idfValueOf, inverseDocumentFrequency.
  rewrite docs_with_token, plus_INR. reflexivity.
Qed.

End TfIdfFacts.

(** C1.  For a document [d] of the corpus, the vector [calculateTfIdf]
    computes has, for every token [t] of [d], the entry
    [termFrequency t d * inverseDocumentFrequency t corpus], and no entry
    for a token that does not occur in [d].  (Numbers are real numbers.) *)
Theorem calculateTfIdf_weights (d : list str) (corpus : list (list str))
  (Hd : In d corpus) (t : str) :
  (In t d ->
   mget (Similarity.calculateTfIdf d corpus) t
   = Some (Similarity.termFrequency t d
           * Similarity.inverseDocumentFrequency t corpus))
  /\ (~ In t d -> mget (Similarity.calculateTfIdf d corpus) t = None).
Proof.
  rewrite TfIdfFacts.calculateTfIdf_get.
  rewrite TfIdfFacts.tfValueOf_termFrequency.
  rewrite TfIdfFacts.idfValueOf_inverseDocumentFrequency.
  split; intros Ht.
  - apply TfIdfFacts.includes_In in Ht. rewrite Ht. reflexivity.
  - destruct (includes d t) eqn:E; [|reflexivity].
    apply TfIdfFacts.includes_In in E. contradiction.
Qed.

Lemma calculateTfIdf_weights_witness :
  let d := [lit "react"; lit "redux"; lit "react"] in
  let corpus := [d; [lit "react"; lit "python"]] in
  mget (Similarity.calculateTfIdf d corpus) (lit "react")
  = Some (Similarity.termFrequency (lit "react") d
          * Similarity.inverseDocumentFrequency (lit "react") corpus)
  /\ mget (Similarity.calculateTfIdf d corpus) (lit "python") = None.
Proof.
  intros d corpus.
  assert (Hd : In d corpus) by (left; reflexivity).
  split.
  - apply (proj1 (calculateTfIdf_weights d corpus Hd (lit "react"))).
    left; reflexivity.
  - apply (proj2 (calculateTfIdf_weights d corpus Hd (lit "python"))).
    intros [H|[H|[H|[]]]]; discriminate H.
Defined.

(** ** Sign of the weights *)

Module SignFacts.
Import Similarity TfIdfFacts.

Lemma div_lt_1 (a b : R) : 0 < a -> a < b -> 0 < a / b < 1.
Proof.
  intros Ha Hab. unfold Rdiv.
  assert (Hb : 0 < / b) by (apply Rinv_0_lt_compat; lra).
  assert (Hbb : b * / b = 1) by (apply Rinv_r; lra).
  split; nra.
Qed.

Lemma div_ge_1 (a b : R) : 0 < b -> b <= a -> 1 <= a / b.
Proof.
  intros Hb Hba. unfold Rdiv.
  assert (Hi : 0 < / b) by (apply Rinv_0_lt_compat; lra).
  assert (Hbb : b * / b = 1) by (apply Rinv_r; lra).
  nra.
Qed.

Lemma ln_neg (x : R) : 0 < x < 1 -> ln x < 0.
Proof. intros [H0 H1]. rewrite <- ln_1. apply ln_increasing; assumption. Qed.

Lemma ln_nonneg (x : R) : 1 <= x -> 0 <= ln x.
Proof.
  intros [H|<-].
  - left. rewrite <- ln_1. apply ln_increasing; lra.
  - rewrite ln_1. lra.
Qed.

Section Filter.
Variable A : Type.
Variable p : A -> bool.

Lemma filter_all (l : list A) :
  forallb p l = true -> length (filter p l) = length l.
Proof.
  induction l as [|x l IH]; simpl; auto.
  destruct (p x); simpl; [intros H; f_equal; auto | discriminate].
Qed.

Lemma filter_length_bound (l : list A) :
  (length (filter p l) <= length l)%nat.
Proof.
  induction l as [|x l IH]; simpl; auto.
  destruct (p x); simpl; lia.
Qed.

Lemma filter_some_missing (l : list A) :
  forallb p l = false -> (length (filter p l) < length l)%nat.
Proof.
  induction l as [|x l IH]; simpl; [discriminate|].
  destruct (p x); simpl; intros H.
  - apply IH in H. lia.
  - pose proof (filter_length_bound l). lia.
Qed.

Lemma forallb_false_exists (l : list A) :
  forallb p l = false -> exists x, In x l /\ p x = false.
Proof.
  induction l as [|x l IH]; simpl; [discriminate|].
  destruct (p x) eqn:E; simpl; intros H.
  - destruct (IH H) as [y [Hy Hp]]. exists y; auto.
  - exists x; auto.
Qed.

End Filter.

(** The idf value is negative when every document of a non-empty corpus
    has the token, and non-negative when one of them lacks it. *)
Lemma idfValueOf_sign (allTokens : list (list str)) (k : str) :
  allTokens <> [] ->
  (forallb (fun doc => includes doc k) allTokens = true ->
   idfValueOf allTokens k < 0)
  /\ (forallb (fun doc => includes doc k) allTokens = false ->
      0 <= idfValueOf allTokens k).
Proof.
  intros Hne. unfold idfValueOf.
  assert (Hn : 0 < INR (length allTokens)).
  { apply lt_0_INR. destruct allTokens; [congruence | simpl; lia]. }
  split; intros Hall.
  - rewrite (filter_all _ _ Hall). apply ln_neg, div_lt_1; lra.
  - apply filter_some_missing in Hall. apply ln_nonneg, div_ge_1.
    + pose proof (pos_INR (length (filter (fun doc => includes doc k)
                                          allTokens))). lra.
    + rewrite <- S_INR. apply le_INR. lia.
Qed.

Lemma tfValueOf_pos (tokens : list str) (k : str) :
  In k tokens -> 0 < tfValueOf tokens k.
Proof.
  intros Hin. unfold tfValueOf.
  assert (Hc : 0 < INR (countOf k tokens))
    by (apply lt_0_INR, countOf_pos, Hin).
  assert (Hl : 0 < INR (length tokens)).
  { apply lt_0_INR. destruct tokens; [destruct Hin | simpl; lia]. }
  apply Rmult_lt_0_compat; [exact Hc|].
  apply Rdiv_lt_0_compat; lra.
Qed.

Lemma tfValueOf_nonneg (tokens : list str) (k : str) :
  0 <= tfValueOf tokens k.
Proof.
  unfold tfValueOf. apply Rmult_le_pos; [apply pos_INR|].
  destruct tokens as [|t tokens].
  - simpl. unfold Rdiv. rewrite Rinv_0. lra.
  - left. apply Rdiv_lt_0_compat; [lra|].
    apply lt_0_INR. simpl; lia.
Qed.

End SignFacts.

(** C6, as stated, fails: in the corpus of two documents that both consist
    of the token [abc], the weight of [abc] is [ln (2 / 3)], a negative
    number. *)
Lemma negative_weight_example :
  exists w,
    mget (Similarity.calculateTfIdf [lit "abc"] [[lit "abc"]; [lit "abc"]])
         (lit "abc") = Some w
    /\ w < 0.
Proof.
  eexists. split.
  - rewrite TfIdfFacts.calculateTfIdf_get. reflexivity.
  - apply Ropp_lt_cancel. rewrite Ropp_0, Ropp_mult_distr_r.
    apply Rmult_lt_0_compat.
    + apply SignFacts.tfValueOf_pos. left; reflexivity.
    + apply Ropp_0_gt_lt_contravar.
      apply (SignFacts.idfValueOf_sign (allTokens := [[lit "abc"]; [lit "abc"]])
               (lit "abc")); [discriminate | reflexivity].
Qed.

(** C6, amended.  For a document [d] of the corpus and a token [t] of [d],
    the vector has a weight for [t]; the weight is negative exactly when
    every document of the corpus contains [t], and non-negative exactly
    when some document of the corpus lacks [t]. *)
Theorem calculateTfIdf_weight_sign (d : list str) (corpus : list (list str))
  (t : str) (Hd : In d corpus) (Ht : In t d) :
  exists w,
    mget (Similarity.calculateTfIdf d corpus) t = Some w
    /\ (w < 0 <-> forall doc, In doc corpus -> In t doc)
    /\ (0 <= w <-> exists doc, In doc corpus /\ ~ In t doc).
Proof.
  assert (Hne : corpus <> []) by (intros ->; destruct Hd).
  destruct (SignFacts.idfValueOf_sign t Hne) as [Hneg Hpos].
  pose proof (SignFacts.tfValueOf_pos _ _ Ht) as Htf.
  exists (Similarity.tfValueOf d t * Similarity.idfValueOf corpus t).
  split.
  - rewrite TfIdfFacts.calculateTfIdf_get.
    apply TfIdfFacts.includes_In in Ht. rewrite Ht. reflexivity.
  - destruct (forallb (fun doc => includes doc t) corpus) eqn:Hall.
    + specialize (Hneg eq_refl). rewrite forallb_forall in Hall.
      assert (Hevery : forall doc, In doc corpus -> In t doc)
        by (intros doc Hdoc; apply TfIdfFacts.includes_In, Hall, Hdoc).
      split; split; intros H; try nra; auto.
      destruct H as [doc [Hdoc Hnot]]. elim Hnot. auto.
    + specialize (Hpos eq_refl).
      destruct (SignFacts.forallb_false_exists _ _ Hall) as [doc [Hdoc Hp]].
      assert (Hnot : ~ In t doc).
      { intros Hin. apply TfIdfFacts.includes_In in Hin. congruence. }
      split; split; intros H; try nra.
      * elim Hnot. auto.
      * exists doc; auto.
Qed.

Lemma calculateTfIdf_weight_sign_witness :
  exists w,
    mget (Similarity.calculateTfIdf [lit "abc"; lit "xyz"]
            [[lit "abc"; lit "xyz"]; [lit "abc"]]) (lit "xyz") = Some w
    /\ (w < 0 <->
        forall doc, In doc [[lit "abc"; lit "xyz"]; [lit "abc"]] ->
                    In (lit "xyz") doc)
    /\ (0 <= w <->
        exists doc, In doc [[lit "abc"; lit "xyz"]; [lit "abc"]]
                    /\ ~ In (lit "xyz") doc).
Proof.
  apply (@calculateTfIdf_weight_sign [lit "abc"; lit "xyz"]
           [[lit "abc"; lit "xyz"]; [lit "abc"]] (lit "xyz")).
  - left; reflexivity.
  - right; left; reflexivity.
Defined.

(** ** Cosine similarity *)

Module CosineFacts.
Import Similarity.

Section Sums.
Variables a b : str -> R.

Lemma fold_sums (keys : list str) :
  forall d m1 m2,
    fold_left
      (fun acc key =>
         let '(dotProduct, mag1, mag2) := acc in
         (dotProduct + a key * b key, mag1 + a key * a key,
          mag2 + b key * b key))
      keys (d, m1, m2)
    = (d + sumOver (fun k => a k * b k) keys,
       m1 + sumOver (fun k => a k * a k) keys,
       m2 + sumOver (fun k => b k * b k) keys).
Proof.
  induction keys as [|k keys IH]; intros d m1 m2; cbn [fold_left sumOver fold_right].
  - f_equal; [f_equal|]; ring.
  - rewrite IH. unfold sumOver. f_equal; [f_equal|]; ring.
Qed.

Lemma sum_squares_nonneg (keys : list str) :
  0 <= sumOver (fun k => a k * a k) keys.
Proof.
  induction keys as [|k keys IH]; simpl; [lra|].
  assert (0 <= a k * a k) by nra. lra.
Qed.

Lemma sum_squares_pos (keys : list str) (k : str) :
  In k keys -> a k <> 0 -> 0 < sumOver (fun k => a k * a k) keys.
Proof.
  induction keys as [|k0 keys IH]; simpl; [intros []|].
  intros [->|Hin] Hk.
  - pose proof (sum_squares_nonneg keys) as Hs. unfold sumOver in *.
    assert (0 < a k * a k) by nra. lra.
  - specialize (IH Hin Hk). unfold sumOver in *.
    assert (0 <= a k0 * a k0) by nra. lra.
Qed.

Lemma sum_products_nonneg (keys : list str) :
  (forall k, 0 <= a k * b k) -> 0 <= sumOver (fun k => a k * b k) keys.
Proof.
  intros H. induction keys as [|k keys IH]; simpl; [lra|].
  specialize (H k). unfold sumOver in *. lra.
Qed.

End Sums.

(** The inequality of Cauchy and Schwarz, for sums over a list of keys. *)
Lemma cauchy_schwarz (a b : str -> R) (keys : list str) :
  sumOver (fun k => a k * b k) keys * sumOver (fun k => a k * b k) keys
  <= sumOver (fun k => a k * a k) keys * sumOver (fun k => b k * b k) keys.
Proof.
  induction keys as [|k keys IH]; simpl; [lra|].
  pose proof (sum_squares_nonneg a keys) as Ha.
  pose proof (sum_squares_nonneg b keys) as Hb.
  unfold sumOver in *.
  set (D := fold_right (fun key acc => a key * b key + acc) 0 keys) in *.
  set (M1 := fold_right (fun key acc => a key * a key + acc) 0 keys) in *.
  set (M2 := fold_right (fun key acc => b key * b key + acc) 0 keys) in *.
  set (x := a k). set (y := b k).
  assert (Hx : 0 <= x * x) by apply Rle_0_sqr.
  assert (Hy : 0 <= y * y) by apply Rle_0_sqr.
  assert (Hu : 0 <= M1 * (y * y) + M2 * (x * x))
    by (apply Rplus_le_le_0_compat; apply Rmult_le_pos; assumption).
  assert (Hsq : (2 * D * x * y) * (2 * D * x * y)
                <= (M1 * (y * y) + M2 * (x * x))
                   * (M1 * (y * y) + M2 * (x * x))).
  { assert (H1 : 0 <= (M1 * (y * y) - M2 * (x * x))
                      * (M1 * (y * y) - M2 * (x * x)))
      by apply Rle_0_sqr.
    assert (H2 : 0 <= (x * y) * (x * y) * (M1 * M2 - D * D))
      by (apply Rmult_le_pos; [apply Rle_0_sqr | lra]).
    lra. }
  assert (Hw : 2 * D * x * y <= M1 * (y * y) + M2 * (x * x)) by nra.
  nra.
Qed.

Lemma ratio_bounds (D M1 M2 : R) :
  0 <= M1 -> 0 <= M2 -> D * D <= M1 * M2 -> M1 <> 0 -> M2 <> 0 ->
  -1 <= D / (sqrt M1 * sqrt M2) <= 1.
Proof.
  intros H1 H2 HD N1 N2.
  assert (P1 : 0 < sqrt M1) by (apply sqrt_lt_R0; lra).
  assert (P2 : 0 < sqrt M2) by (apply sqrt_lt_R0; lra).
  pose proof (sqrt_sqrt M1 H1) as S1.
  pose proof (sqrt_sqrt M2 H2) as S2.
  set (s := sqrt M1 * sqrt M2).
  assert (Ps : 0 < s) by (unfold s; nra).
  assert (Ss : s * s = M1 * M2) by (unfold s; nra).
  assert (Hb : - s <= D <= s) by (split; nra).
  assert (Pi : 0 < / s) by (apply Rinv_0_lt_compat; exact Ps).
  assert (Hi : s * / s = 1) by (apply Rinv_r; lra).
  unfold Rdiv. split; nra.
Qed.

Lemma isZero_true (x : R) : isZero x = true <-> x = 0.
Proof. unfold isZero. destruct (Req_dec_T x 0); split; congruence. Qed.

Lemma isZero_false (x : R) : isZero x = false <-> x <> 0.
Proof. unfold isZero. destruct (Req_dec_T x 0); split; congruence. Qed.

(** [cosineSimilarity] through the three sums of its loop. *)
Lemma cosineSimilarity_sums (vec1 vec2 : amap R) :
  let keys := Extract.setOf (mkeys vec1 ++ mkeys vec2) in
  let a := fun k => orZero (mget vec1 k) in
  let b := fun k => orZero (mget vec2 k) in
  cosineSimilarity vec1 vec2
  = if isZero (sumOver (fun k => a k * a k) keys)
       || isZero (sumOver (fun k => b k * b k) keys)
    then 0
    else sumOver (fun k => a k * b k) keys
         / (sqrt (sumOver (fun k => a k * a k) keys)
            * sqrt (sumOver (fun k => b k * b k) keys)).
Proof.
  intros keys a b. unfold cosineSimilarity. cbv zeta. fold keys.
  pose proof (fold_sums a b keys 0 0 0) as H.
  unfold a, b in H. cbv beta in H. rewrite H.
  rewrite !Rplus_0_l. reflexivity.
Qed.

Lemma guarded_ratio_bounds (D M1 M2 : R) :
  0 <= M1 -> 0 <= M2 -> D * D <= M1 * M2 ->
  -1 <= (if isZero M1 || isZero M2 then 0
         else D / (sqrt M1 * sqrt M2)) <= 1.
Proof.
  intros H1 H2 HD.
  destruct (isZero M1) eqn:E1; [simpl; lra|].
  destruct (isZero M2) eqn:E2; [simpl; lra|].
  apply isZero_false in E1, E2. simpl.
  apply ratio_bounds; assumption.
Qed.

Lemma guarded_ratio_nonneg (D M1 M2 : R) :
  0 <= M1 -> 0 <= M2 -> 0 <= D ->
  0 <= (if isZero M1 || isZero M2 then 0
        else D / (sqrt M1 * sqrt M2)).
Proof.
  intros H1 H2 HD.
  destruct (isZero M1) eqn:E1; [simpl; lra|].
  destruct (isZero M2) eqn:E2; [simpl; lra|].
  apply isZero_false in E1, E2. simpl.
  assert (0 < sqrt M1) by (apply sqrt_lt_R0; lra).
  assert (0 < sqrt M2) by (apply sqrt_lt_R0; lra).
  apply Rmult_le_pos; [assumption|].
  left. apply Rinv_0_lt_compat. apply Rmult_lt_0_compat; assumption.
Qed.

Lemma cosineSimilarity_range (vec1 vec2 : amap R) :
  -1 <= cosineSimilarity vec1 vec2 <= 1.
Proof.
  rewrite cosineSimilarity_sums. cbv zeta.
  apply guarded_ratio_bounds;
    auto using sum_squares_nonneg, cauchy_schwarz.
Qed.

Lemma zeroVector_get (vec : amap R) (k : str) :
  zeroVector vec -> orZero (mget vec k) = 0.
Proof.
  unfold zeroVector. induction 1 as [|[k' v'] vec Hv Hall IH]; simpl; auto.
  destruct (str_eqb k k'); auto.
Qed.

Lemma sumOver_zero (f : str -> R) (keys : list str) :
  (forall k, f k = 0) -> sumOver f keys = 0.
Proof.
  intros H. induction keys as [|k keys IH]; simpl; auto.
  rewrite H, IH. ring.
Qed.

Lemma cosineSimilarity_zero (vec1 vec2 : amap R) :
  zeroVector vec1 \/ zeroVector vec2 -> cosineSimilarity vec1 vec2 = 0.
Proof.
  intros H. rewrite cosineSimilarity_sums. cbv zeta.
  destruct H as [H|H].
  - rewrite (@sumOver_zero (fun k => orZero (mget vec1 k)
                                     * orZero (mget vec1 k))).
    + rewrite (proj2 (isZero_true 0) eq_refl). reflexivity.
    + intros k. rewrite (zeroVector_get k H). ring.
  - rewrite (@sumOver_zero (fun k => orZero (mget vec2 k)
                                     * orZero (mget vec2 k))).
    + rewrite (proj2 (isZero_true 0) eq_refl), orb_true_r. reflexivity.
    + intros k. rewrite (zeroVector_get k H). ring.
Qed.

(** Two vectors weighted against the same corpus have no negative
    product of weights: the idf factor of a token is the same in both. *)
Lemma same_corpus_products (d1 d2 : list str) (corpus : list (list str))
  (k : str) :
  0 <= orZero (mget (calculateTfIdf d1 corpus) k)
       * orZero (mget (calculateTfIdf d2 corpus) k).
Proof.
  rewrite !TfIdfFacts.calculateTfIdf_orZero.
  pose proof (SignFacts.tfValueOf_nonneg d1 k).
  pose proof (SignFacts.tfValueOf_nonneg d2 k).
  set (i := idfValueOf corpus k).
  assert (0 <= i * i) by nra.
  replace (tfValueOf d1 k * i * (tfValueOf d2 k * i))
    with (tfValueOf d1 k * tfValueOf d2 k * (i * i)) by ring.
  apply Rmult_le_pos; [apply Rmult_le_pos|]; assumption.
Qed.

Lemma cosineSimilarity_same_corpus (d1 d2 : list str)
  (corpus : list (list str)) :
  0 <= cosineSimilarity (calculateTfIdf d1 corpus) (calculateTfIdf d2 corpus)
  <= 1.
Proof.
  split; [|apply cosineSimilarity_range].
  rewrite cosineSimilarity_sums. cbv zeta.
  apply guarded_ratio_nonneg; auto using sum_squares_nonneg.
  apply sum_products_nonneg. intros k. apply same_corpus_products.
Qed.

End CosineFacts.

(** C2, as stated, fails: the vectors [{x: 1}] and [{x: -1}] are not zero
    and their cosine similarity is [-1]. *)
Lemma cosine_negative_example :
  Similarity.cosineSimilarity [(lit "x", 1)] [(lit "x", -1)] = -1
  /\ ~ (0 <= Similarity.cosineSimilarity [(lit "x", 1)] [(lit "x", -1)] <= 1).
Proof.
  assert (E : Similarity.cosineSimilarity [(lit "x", 1)] [(lit "x", -1)]
              = -1).
  { rewrite CosineFacts.cosineSimilarity_sums. cbv zeta.
    change (Extract.setOf (mkeys [(lit "x", 1)] ++ mkeys [(lit "x", -1)]))
      with [lit "x"].
    cbn [Similarity.sumOver fold_right mget]. rewrite str_eqb_refl.
    cbn [orZero].
    replace (1 * 1 + 0) with 1 by ring.
    replace (-1 * -1 + 0) with 1 by ring.
    rewrite (proj2 (CosineFacts.isZero_false 1)) by lra.
    cbn [orb]. rewrite sqrt_1. lra. }
  split; [exact E|]. rewrite E. lra.
Qed.

(** ** A candidate identical to the query *)

Module RoundTripFacts.
Import Similarity.

Lemma cosineSimilarity_self (vec : amap R) (k : str) (w : R) :
  mget vec k = Some w -> w <> 0 -> cosineSimilarity vec vec = 1.
Proof.
  intros Hget Hw. rewrite CosineFacts.cosineSimilarity_sums. cbv zeta.
  set (keys := Extract.setOf (mkeys vec ++ mkeys vec)).
  set (M := sumOver (fun k => orZero (mget vec k) * orZero (mget vec k)) keys).
  assert (Hin : In k keys).
  { unfold keys. apply SetFacts.setOf_In, in_or_app. left.
    destruct (in_dec str_eq_dec k (mkeys vec)) as [H|H]; [exact H|].
    apply mget_none in H. congruence. }
  assert (HM : 0 < M).
  { unfold M.
    apply (CosineFacts.sum_squares_pos (fun k => orZero (mget vec k))
             keys k Hin).
    rewrite Hget. exact Hw. }
  rewrite (proj2 (CosineFacts.isZero_false M)) by lra. cbn [orb].
  rewrite sqrt_sqrt by lra. apply Rdiv_diag. lra.
Qed.

Lemma round_10000 : round (1 * 100 * 100) / 100 = 100.
Proof.
  unfold round.
  rewrite <- (Int_part_spec (1 * 100 * 100 + / 2) 10000) by (split; lra).
  lra.
Qed.

Lemma round_0 : round (0 * 100 * 100) / 100 = 0.
Proof.
  unfold round.
  rewrite <- (Int_part_spec (0 * 100 * 100 + / 2) 0) by (split; lra).
  lra.
Qed.

(** In a corpus made of two copies of one document every weight is
    negative, hence not zero. *)
Lemma twin_weight (t : str) (q : list str) :
  exists w,
    mget (calculateTfIdf (t :: q) [t :: q; t :: q]) t = Some w /\ w <> 0.
Proof.
  exists (tfValueOf (t :: q) t * idfValueOf [t :: q; t :: q] t).
  assert (Hinc : includes (t :: q) t = true)
    by (apply TfIdfFacts.includes_In; left; reflexivity).
  split.
  - rewrite TfIdfFacts.calculateTfIdf_get, Hinc. reflexivity.
  - assert (Htf : 0 < tfValueOf (t :: q) t)
      by (apply SignFacts.tfValueOf_pos; left; reflexivity).
    assert (Hidf : idfValueOf [t :: q; t :: q] t < 0).
    { apply SignFacts.idfValueOf_sign; [discriminate|].
      cbn [forallb]. rewrite Hinc. reflexivity. }
    nra.
Qed.

Lemma tokensFor_single (resume : Resume) :
  tokensFor (resumeTokensMapOf [resume]) resume
  = Tokenizer.tokenize (extracted_text resume).
Proof.
  unfold tokensFor, resumeTokensMapOf. cbn [fold_left mset mget].
  rewrite str_eqb_refl. reflexivity.
Qed.

End RoundTripFacts.

(** C5.  When the only candidate has the token list of the query, and that
    list is not empty, the run reports the score 100 for it (at rank 1). *)
Theorem identical_candidate_scores_100 (jobPostingId : str)
  (jobPosting : Similarity.JobPosting) (resume : Similarity.Resume)
  (Hsame : Tokenizer.tokenize (Similarity.extracted_text resume)
           = Similarity.jobTokensOf jobPosting)
  (Hne : Similarity.jobTokensOf jobPosting <> []) :
  let keywords :=
    Similarity.findMatchedKeywords (Similarity.jobTokensOf jobPosting)
      (Similarity.jobTokensOf jobPosting) 10 in
  Similarity.rankingRun jobPostingId jobPosting [resume] None
  = Similarity.Success
      [{| Similarity.resumeId := Similarity.id resume;
          Similarity.similarity := 100;
          Similarity.matchedKeywords := keywords |}]
      [{| Similarity.job_posting_id := jobPostingId;
          Similarity.resume_id := Similarity.id resume;
          Similarity.similarity_score := 100;
          Similarity.matched_keywords := keywords;
          Similarity.ranking := 1 |}]
      1.
Proof.
  intros keywords.
  unfold Similarity.rankingRun, Similarity.sortResults, Similarity.scoreAll.
  cbn [map]. rewrite RoundTripFacts.tokensFor_single, Hsame.
  fold keywords.
  destruct (Similarity.jobTokensOf jobPosting) as [|t q] eqn:Hq;
    [congruence|].
  destruct (RoundTripFacts.twin_weight t q) as [w [Hget Hw]].
  rewrite (@RoundTripFacts.cosineSimilarity_self _ t w Hget Hw).
  rewrite RoundTripFacts.round_10000.
  reflexivity.
Qed.

Lemma identical_candidate_scores_100_witness :
  exists keywords,
    Similarity.rankingRun (lit "job-1")
      {| Similarity.job_id := lit "job-1";
         Similarity.description := lit "Senior React Developer";
         Similarity.requirements := None |}
      [{| Similarity.id := lit "resume-1";
          Similarity.extracted_text := lit "senior react developer" |}]
      None
    = Similarity.Success
        [{| Similarity.resumeId := lit "resume-1";
            Similarity.similarity := 100;
            Similarity.matchedKeywords := keywords |}]
        [{| Similarity.job_posting_id := lit "job-1";
            Similarity.resume_id := lit "resume-1";
            Similarity.similarity_score := 100;
            Similarity.matched_keywords := keywords;
            Similarity.ranking := 1 |}]
        1.
Proof.
  eexists.
  apply (@identical_candidate_scores_100 (lit "job-1")
           {| Similarity.job_id := lit "job-1";
              Similarity.description := lit "Senior React Developer";
              Similarity.requirements := None |}
           {| Similarity.id := lit "resume-1";
              Similarity.extracted_text := lit "senior react developer" |}).
  - vm_compute. reflexivity.
  - vm_compute. discriminate.
Defined.

(** ** Sorting by descending score *)

Section SortFacts.
Variable A : Type.
Variable key : A -> R.

Lemma after_key (a b : A) :
  after (fun a b => key b - key a) a b = true <-> key a < key b.
Proof.
  unfold after. destruct (Rlt_dec 0 (key b - key a)); split;
    intros H; try reflexivity; try discriminate; lra.
Qed.

Lemma insert_perm (cmp : A -> A -> R) (x : A) (l : list A) :
  Permutation (insert cmp x l) (x :: l).
Proof.
  induction l as [|y l IH]; simpl; [apply Permutation_refl|].
  destruct (after cmp x y); [|apply Permutation_refl].
  apply perm_trans with (y :: x :: l);
    [apply perm_skip, IH | apply perm_swap].
Qed.

Lemma sort_perm (cmp : A -> A -> R) (l : list A) :
  Permutation (sort cmp l) l.
Proof.
  induction l as [|x l IH]; simpl; [apply perm_nil|].
  apply perm_trans with (x :: sort cmp l);
    [apply insert_perm | apply perm_skip, IH].
Qed.

Lemma insert_sorted (x : A) (l : list A) :
  StronglySorted Rge (map key l) ->
  StronglySorted Rge (map key (insert (fun a b => key b - key a) x l)).
Proof.
  induction l as [|y l IH]; simpl; intros Hs.
  - constructor; constructor.
  - inversion Hs as [|? ? Hs' Hall]; subst.
    destruct (after (fun a b => key b - key a) x y) eqn:E.
    + apply after_key in E. cbn [map]. constructor; [apply IH, Hs'|].
      apply Forall_forall. intros s Hin.
      apply in_map_iff in Hin. destruct Hin as [z [<- Hz]].
      apply (Permutation_in _ (insert_perm _ x l)) in Hz.
      destruct Hz as [<-|Hz]; [lra|].
      rewrite Forall_forall in Hall. apply Hall, in_map, Hz.
    + assert (Hxy : key y <= key x).
      { destruct (Rle_dec (key y) (key x)) as [H|H]; [exact H|].
        assert (Hlt : key x < key y) by lra.
        apply after_key in Hlt. congruence. }
      cbn [map]. constructor; [exact Hs|].
      constructor; [lra|].
      eapply Forall_impl; [|exact Hall]. simpl. intros s Hsy. lra.
Qed.

Lemma sort_sorted (l : list A) :
  StronglySorted Rge (map key (sort (fun a b => key b - key a) l)).
Proof.
  induction l as [|x l IH]; simpl; [constructor|].
  apply insert_sorted, IH.
Qed.

(** Stability: the elements of one score are inserted in front of those of
    the same score that were behind them. *)
Lemma insert_filter (s : R) (x : A) (l : list A) :
  filter (fun a => Similarity.isZero (key a - s))
         (insert (fun a b => key b - key a) x l)
  = filter (fun a => Similarity.isZero (key a - s)) (x :: l).
Proof.
  induction l as [|y l IH]; [reflexivity|].
  cbn [insert].
  destruct (after (fun a b => key b - key a) x y) eqn:E; [|reflexivity].
  apply after_key in E. cbn [filter] in *. rewrite IH.
  destruct (Similarity.isZero (key x - s)) eqn:Ex; [|reflexivity].
  destruct (Similarity.isZero (key y - s)) eqn:Ey; [|reflexivity].
  apply CosineFacts.isZero_true in Ex, Ey. lra.
Qed.

Lemma sort_filter (s : R) (l : list A) :
  filter (fun a => Similarity.isZero (key a - s))
         (sort (fun a b => key b - key a) l)
  = filter (fun a => Similarity.isZero (key a - s)) l.
Proof.
  induction l as [|x l IH]; [reflexivity|].
  cbn [sort fold_right]. fold (sort (fun a b => key b - key a) l).
  rewrite insert_filter. cbn [filter]. rewrite IH. reflexivity.
Qed.

End SortFacts.

(** ** The ranking run *)

Module RankingFacts.
Import Similarity.

Lemma scoreAll_ids (jobPosting : JobPosting) (resumes : list Resume) :
  map resumeId (scoreAll jobPosting resumes) = map id resumes.
Proof.
  unfold scoreAll. cbv zeta. rewrite map_map. reflexivity.
Qed.

Section Rows.
Variable jobPostingId : str.

Lemma rows_from (results : list Result) :
  forall i,
    let rows :=
      mapIndex
        (fun result index =>
           {| job_posting_id := jobPostingId;
              resume_id := resumeId result;
              similarity_score := similarity result;
              matched_keywords := matchedKeywords result;
              ranking := index + 1 |})
        i results in
    map ranking rows = seq (i + 1) (length results)
    /\ map resume_id rows = map resumeId results
    /\ map similarity_score rows = map similarity results
    /\ forall s,
         map resume_id
             (filter (fun row => isZero (similarity_score row - s)) rows)
         = map resumeId
               (filter (fun r => isZero (similarity r - s)) results).
Proof.
  induction results as [|r results IH]; intros i; cbn [mapIndex].
  - cbv zeta. simpl. auto.
  - cbv zeta in *. destruct (IH (S i)) as [H1 [H2 [H3 H4]]].
    cbn [map length seq ranking resume_id similarity_score].
    replace (S i + 1)%nat with (S (i + 1)) in H1 by lia.
    rewrite H1, H2, H3. repeat split.
    intros s. cbn [filter similarity_score].
    destruct (isZero (similarity r - s)); cbn [map resume_id];
      rewrite H4; reflexivity.
Qed.

End Rows.

Lemma insertDataOf_spec (jobPostingId : str) (results : list Result) :
  let rows := insertDataOf jobPostingId results in
  map ranking rows = seq 1 (length results)
  /\ map resume_id rows = map resumeId results
  /\ map similarity_score rows = map similarity results
  /\ forall s,
       map resume_id
           (filter (fun row => isZero (similarity_score row - s)) rows)
       = map resumeId (filter (fun r => isZero (similarity r - s)) results).
Proof. apply (rows_from jobPostingId results 0). Qed.

Lemma rankingRun_success (jobPostingId : str) (jobPosting : JobPosting)
  (resumes : list Resume) :
  resumes <> [] ->
  rankingRun jobPostingId jobPosting resumes None
  = Success (sortResults (scoreAll jobPosting resumes))
            (insertDataOf jobPostingId
               (sortResults (scoreAll jobPosting resumes)))
            (length resumes).
Proof. destruct resumes; [congruence | reflexivity]. Qed.

Lemma sortResults_perm (results : list Result) :
  Permutation (sortResults results) results.
Proof. apply sort_perm. Qed.

End RankingFacts.

(** C3.  A run over a non-empty candidate list with a successful insertion
    returns one row per candidate: the identifiers of the rows are those of
    the candidates, each as often as it was submitted (so exactly once when
    the submitted identifiers are distinct); the ranks are 1, 2, ..., N in
    row order; the scores never increase along the rows, so the first row
    has the greatest score; and the rows of any one score list their
    candidates in the order of submission. *)
Theorem ranking_output (jobPostingId : str)
  (jobPosting : Similarity.JobPosting) (resumes : list Similarity.Resume)
  (Hne : resumes <> []) :
  exists results rows,
    Similarity.rankingRun jobPostingId jobPosting resumes None
    = Similarity.Success results rows (length resumes)
    /\ Permutation (map Similarity.resume_id rows)
                   (map Similarity.id resumes)
    /\ (NoDup (map Similarity.id resumes) ->
        NoDup (map Similarity.resume_id rows))
    /\ map Similarity.ranking rows = seq 1 (length resumes)
    /\ StronglySorted Rge (map Similarity.similarity_score rows)
    /\ (forall row, In row rows ->
          Similarity.similarity_score row
          <= hd 0 (map Similarity.similarity_score rows))
    /\ map Similarity.resumeId (Similarity.scoreAll jobPosting resumes)
       = map Similarity.id resumes
    /\ (forall s,
          map Similarity.resume_id
              (filter (fun row =>
                         Similarity.isZero (Similarity.similarity_score row - s))
                      rows)
          = map Similarity.resumeId
                (filter (fun r =>
                           Similarity.isZero (Similarity.similarity r - s))
                        (Similarity.scoreAll jobPosting resumes))).
Proof.
  set (scored := Similarity.scoreAll jobPosting resumes).
  set (results := Similarity.sortResults scored).
  set (rows := Similarity.insertDataOf jobPostingId results).
  exists results, rows.
  destruct (RankingFacts.insertDataOf_spec jobPostingId results)
    as [Hrank [Hids [Hscores Hstable]]].
  fold rows in Hrank, Hids, Hscores, Hstable.
  assert (Hperm : Permutation results scored)
    by apply RankingFacts.sortResults_perm.
  assert (Hidperm : Permutation (map Similarity.resume_id rows)
                                (map Similarity.id resumes)).
  { rewrite Hids. unfold scored in Hperm.
    rewrite <- (RankingFacts.scoreAll_ids jobPosting resumes).
    apply Permutation_map, Hperm. }
  assert (Hsorted : StronglySorted Rge (map Similarity.similarity_score rows)).
  { rewrite Hscores. apply sort_sorted. }
  split; [apply RankingFacts.rankingRun_success, Hne|].
  split; [exact Hidperm|].
  split.
  { intros Hnd. apply (Permutation_NoDup (Permutation_sym Hidperm) Hnd). }
  split.
  { rewrite Hrank. f_equal.
    rewrite (Permutation_length Hperm). unfold scored, Similarity.scoreAll.
    cbv zeta. apply length_map. }
  split; [exact Hsorted|].
  split.
  { intros row Hin.
    apply (in_map Similarity.similarity_score) in Hin.
    destruct (map Similarity.similarity_score rows) as [|s0 ss];
      [destruct Hin|].
    inversion Hsorted as [|? ? _ Hall]; subst. simpl.
    destruct Hin as [<-|Hin]; [lra|].
    rewrite Forall_forall in Hall. specialize (Hall _ Hin). lra. }
  split; [apply RankingFacts.scoreAll_ids|].
  intros s. rewrite Hstable. unfold results, Similarity.sortResults.
  rewrite sort_filter. reflexivity.
Qed.

Lemma ranking_output_witness :
  let jobPosting :=
    {| Similarity.job_id := lit "job-1";
       Similarity.description := lit "React developer";
       Similarity.requirements := Some (lit "Redux") |} in
  let resumes :=
    [ {| Similarity.id := lit "resume-1";
         Similarity.extracted_text := lit "Python developer" |};
      {| Similarity.id := lit "resume-2";
         Similarity.extracted_text := lit "React and Redux developer" |} ] in
  exists results rows,
    Similarity.rankingRun (lit "job-1") jobPosting resumes None
    = Similarity.Success results rows 2
    /\ Permutation (map Similarity.resume_id rows)
                   [lit "resume-1"; lit "resume-2"]
    /\ map Similarity.ranking rows = [1; 2]%nat
    /\ StronglySorted Rge (map Similarity.similarity_score rows).
Proof.
  intros jobPosting resumes.
  assert (Hne : resumes <> []) by discriminate.
  destruct (@ranking_output (lit "job-1") jobPosting resumes Hne)
    as [results [rows [Hrun [Hperm [_ [Hrank [Hsorted _]]]]]]].
  exists results, rows. auto.
Defined.

(** ** Runs with empty texts *)

Module DegenerateFacts.
Import Similarity.

Lemma calculateTfIdf_nil (allTokens : list (list str)) :
  calculateTfIdf [] allTokens = [].
Proof. reflexivity. Qed.

Lemma tokens_loop_other (resumes : list Resume) (k : str) :
  ~ In k (map id resumes) ->
  forall m : amap (list str),
    mget (fold_left
            (fun m resume =>
               mset m (id resume) (Tokenizer.tokenize (extracted_text resume)))
            resumes m) k
    = mget m k.
Proof.
  induction resumes as [|r resumes IH]; intros Hk m; [reflexivity|].
  cbn [fold_left]. rewrite IH by (intros H; apply Hk; right; exact H).
  apply mget_mset_other. intros ->. apply Hk. left; reflexivity.
Qed.

(** With distinct identifiers the token map gives each resume its own
    tokens. *)
Lemma tokensFor_own (resumes : list Resume) (resume : Resume) :
  NoDup (map id resumes) -> In resume resumes ->
  tokensFor (resumeTokensMapOf resumes) resume
  = Tokenizer.tokenize (extracted_text resume).
Proof.
  unfold tokensFor, resumeTokensMapOf. generalize (@nil (str * list str)).
  induction resumes as [|r resumes IH]; intros m Hnd Hin; [destruct Hin|].
  cbn [fold_left]. inversion Hnd as [|? ? Hnotin Hnd']; subst.
  destruct Hin as [->|Hin].
  - rewrite tokens_loop_other by exact Hnotin.
    rewrite mget_mset_same. reflexivity.
  - apply IH; assumption.
Qed.

Lemma scoreAll_zero (jobPosting : JobPosting) (resumes : list Resume)
  (resume : Resume) :
  In resume resumes ->
  jobTokensOf jobPosting = []
  \/ tokensFor (resumeTokensMapOf resumes) resume = [] ->
  exists r,
    In r (scoreAll jobPosting resumes)
    /\ resumeId r = id resume /\ similarity r = 0.
Proof.
  intros Hin Hzero. unfold scoreAll. cbv zeta.
  eexists. split; [|split].
  - apply in_map_iff. exists resume. split; [reflexivity | exact Hin].
  - reflexivity.
  - cbn [similarity].
    rewrite CosineFacts.cosineSimilarity_zero;
      [apply RoundTripFacts.round_0|].
    destruct Hzero as [H|H]; rewrite H; [left|right]; constructor.
Qed.

Lemma scoreAll_all_zero (jobPosting : JobPosting) (resumes : list Resume) :
  jobTokensOf jobPosting = [] ->
  Forall (fun r => similarity r = 0) (scoreAll jobPosting resumes).
Proof.
  intros Hq. unfold scoreAll. cbv zeta. rewrite Hq.
  apply Forall_forall. intros r Hin.
  apply in_map_iff in Hin. destruct Hin as [resume [<- _]].
  cbn [similarity].
  rewrite CosineFacts.cosineSimilarity_zero;
    [apply RoundTripFacts.round_0 | left; constructor].
Qed.

End DegenerateFacts.

(** C4, as stated, fails: a run whose query text is empty and whose only
    candidate has an empty text succeeds, with the score 0 for the
    candidate. *)
Lemma empty_texts_do_not_fail :
  Similarity.rankingRun (lit "job-1")
    {| Similarity.job_id := lit "job-1";
       Similarity.description := [];
       Similarity.requirements := None |}
    [{| Similarity.id := lit "resume-1";
        Similarity.extracted_text := [] |}]
    None
  = Similarity.Success
      [{| Similarity.resumeId := lit "resume-1";
          Similarity.similarity := 0;
          Similarity.matchedKeywords := [] |}]
      [{| Similarity.job_posting_id := lit "job-1";
          Similarity.resume_id := lit "resume-1";
          Similarity.similarity_score := 0;
          Similarity.matched_keywords := [];
          Similarity.ranking := 1 |}]
      1.
Proof.
  unfold Similarity.rankingRun, Similarity.sortResults, Similarity.scoreAll.
  cbn [map]. rewrite RoundTripFacts.tokensFor_single.
  change (Similarity.jobTokensOf _) with (@nil str).
  change (Tokenizer.tokenize _) with (@nil str).
  rewrite DegenerateFacts.calculateTfIdf_nil.
  rewrite CosineFacts.cosineSimilarity_zero by (left; constructor).
  rewrite RoundTripFacts.round_0.
  reflexivity.
Qed.

(** C4, amended.  With the insertion succeeding, the run over a fetched job
    posting and candidate list fails, and then returns nothing but the
    failure, exactly when the candidate list is empty.  Otherwise it
    succeeds with one result per candidate, none skipped; a query without
    tokens gives every candidate the score 0, and, the identifiers being
    distinct, a candidate without tokens gets the score 0. *)
Theorem rankingRun_fails_only_without_candidates (jobPostingId : str)
  (jobPosting : Similarity.JobPosting) (resumes : list Similarity.Resume) :
  ((exists message,
      Similarity.rankingRun jobPostingId jobPosting resumes None
      = Similarity.Failure message)
   <-> resumes = [])
  /\ (resumes <> [] ->
      exists results rows,
        Similarity.rankingRun jobPostingId jobPosting resumes None
        = Similarity.Success results rows (length resumes)
        /\ Permutation (map Similarity.resumeId results)
                       (map Similarity.id resumes)
        /\ length rows = length resumes
        /\ (Similarity.jobTokensOf jobPosting = [] ->
            Forall (fun r => Similarity.similarity r = 0) results)
        /\ (NoDup (map Similarity.id resumes) ->
            forall resume,
              In resume resumes ->
              Tokenizer.tokenize (Similarity.extracted_text resume) = [] ->
              exists r,
                In r results
                /\ Similarity.resumeId r = Similarity.id resume
                /\ Similarity.similarity r = 0)).
Proof.
  split.
  - split.
    + intros [message H]. destruct resumes as [|r resumes];
        [reflexivity | discriminate H].
    + intros ->. eexists. reflexivity.
  - intros Hne.
    set (scored := Similarity.scoreAll jobPosting resumes).
    pose proof (RankingFacts.sortResults_perm scored) as Hperm.
    exists (Similarity.sortResults scored),
           (Similarity.insertDataOf jobPostingId
              (Similarity.sortResults scored)).
    split; [apply RankingFacts.rankingRun_success, Hne|].
    assert (Hlen : length scored = length resumes)
      by (unfold scored, Similarity.scoreAll; cbv zeta; apply length_map).
    split.
    { rewrite <- (RankingFacts.scoreAll_ids jobPosting resumes).
      apply Permutation_map, Hperm. }
    split.
    { destruct (RankingFacts.insertDataOf_spec jobPostingId
                  (Similarity.sortResults scored)) as [_ [Hids _]].
      rewrite <- (length_map Similarity.resume_id), Hids, length_map.
      rewrite (Permutation_length Hperm). exact Hlen. }
    split.
    { intros Hq.
      apply (Permutation_Forall (Permutation_sym Hperm)).
      apply DegenerateFacts.scoreAll_all_zero, Hq. }
    intros Hnd resume Hin Hempty.
    destruct (@DegenerateFacts.scoreAll_zero jobPosting resumes resume Hin)
      as [r [Hr [Hid Hsim]]].
    { right. rewrite DegenerateFacts.tokensFor_own; assumption. }
    exists r. split; [|split; assumption].
    apply (Permutation_in _ (Permutation_sym Hperm)), Hr.
Qed.

Lemma rankingRun_fails_only_without_candidates_witness :
  let jobPosting :=
    {| Similarity.job_id := lit "job-1";
       Similarity.description := lit "React developer";
       Similarity.requirements := None |} in
  let empty :=
    {| Similarity.id := lit "resume-2"; Similarity.extracted_text := [] |} in
  let resumes :=
    [ {| Similarity.id := lit "resume-1";
         Similarity.extracted_text := lit "React developer" |};
      empty ] in
  (exists results rows,
     Similarity.rankingRun (lit "job-1") jobPosting resumes None
     = Similarity.Success results rows 2
     /\ exists r,
          In r results
          /\ Similarity.resumeId r = lit "resume-2"
          /\ Similarity.similarity r = 0)
  /\ Similarity.rankingRun (lit "job-1") jobPosting [] None
     = Similarity.Failure (lit "No resumes found").
Proof.
  intros jobPosting empty resumes. split; [|reflexivity].
  destruct (proj2 (rankingRun_fails_only_without_candidates
                     (lit "job-1") jobPosting resumes))
    as [results [rows [Hrun [_ [_ [_ Hzero]]]]]]; [discriminate|].
  exists results, rows. split; [exact Hrun|].
  apply (Hzero ltac:(repeat constructor; simpl; intuition discriminate) empty).
  - right; left; reflexivity.
  - reflexivity.
Defined.

(** The two sides of C10 at concrete resumes: a short first line is the
    name, a long cleaned text has none. *)
Lemma extractName_after_cleanText_witness :
  Extract.extractName (Extract.cleanText (lit "  Jane   Doe  "))
  = Some (lit "Jane Doe")
  /\ Extract.extractName
       (Extract.cleanText
          (lit "Jane Doe, Senior Software Engineer with a long summary line"))
     = None.
Proof.
  split.
  - destruct (extractName_after_cleanText (lit "  Jane   Doe  "))
      as [_ [Heq _]].
    rewrite Heq. vm_compute. reflexivity.
  - apply (proj2 (proj2 (proj2
             (extractName_after_cleanText
                (lit "Jane Doe, Senior Software Engineer with a long summary line"))))).
    vm_compute. lia.
Defined.

(** * Further properties of the code *)

(** ** Sets built from arrays: distinctness *)

Module SetMore.
Import Extract.

Lemma setOf_fold_NoDup (xs : list str) :
  forall seen,
    NoDup seen ->
    NoDup (fold_left
             (fun seen x =>
                if existsb (str_eqb x) seen then seen else seen ++ [x])
             xs seen).
Proof.
  induction xs as [|x xs IH]; intros seen Hnd; cbn [fold_left]; auto.
  apply IH. destruct (existsb (str_eqb x) seen) eqn:E; [exact Hnd|].
  apply NoDup_app; repeat split.
  - exact Hnd.
  - constructor; [intros []|constructor].
  - intros y Hy [<-|[]].
    apply SetFacts.existsb_str_eqb in Hy. congruence.
Qed.

Lemma setOf_NoDup (xs : list str) : NoDup (setOf xs).
Proof. apply setOf_fold_NoDup. constructor. Qed.

Lemma setOf_fold_fresh (xs : list str) :
  forall seen,
    NoDup (seen ++ xs) ->
    fold_left
      (fun seen x => if existsb (str_eqb x) seen then seen else seen ++ [x])
      xs seen
    = seen ++ xs.
Proof.
  induction xs as [|x xs IH]; intros seen Hnd; cbn [fold_left].
  - rewrite app_nil_r; reflexivity.
  - assert (Hx : existsb (str_eqb x) seen = false).
    { destruct (existsb (str_eqb x) seen) eqn:E; [|reflexivity].
      apply SetFacts.existsb_str_eqb in E.
      apply NoDup_remove_2 in Hnd. elim Hnd.
      apply in_or_app; left; exact E. }
    rewrite Hx, IH; rewrite <- app_assoc; [reflexivity | exact Hnd].
Qed.

(** A list without repetition is its own set. *)
Lemma setOf_fixed (xs : list str) : NoDup xs -> setOf xs = xs.
Proof. intros H. unfold setOf. rewrite setOf_fold_fresh; auto. Qed.

End SetMore.

(** ** Matched keywords *)

Module KeywordFacts.
Import Similarity.

Section Lists.
Variable A : Type.

Lemma firstn_In (n : nat) (l : list A) (x : A) :
  In x (firstn n l) -> In x l.
Proof.
  revert l; induction n as [|n IH]; intros [|y l]; simpl;
    try (intros []; fail).
  intros [->|H]; auto.
Qed.

Lemma firstn_NoDup (n : nat) (l : list A) : NoDup l -> NoDup (firstn n l).
Proof.
  revert l; induction n as [|n IH]; intros [|y l] H; simpl;
    try constructor.
  - inversion H; subst. intros Hin. apply firstn_In in Hin. contradiction.
  - inversion H; subst. apply IH; assumption.
Qed.

Lemma firstn_StronglySorted (R : A -> A -> Prop) (n : nat) (l : list A) :
  StronglySorted R l -> StronglySorted R (firstn n l).
Proof.
  revert l; induction n as [|n IH]; intros [|y l] H; simpl;
    try constructor.
  - apply IH. inversion H; assumption.
  - inversion H as [|? ? _ Hall]; subst.
    rewrite Forall_forall in *. intros x Hx. apply Hall.
    apply firstn_In in Hx. exact Hx.
Qed.

Lemma StronglySorted_map (B : Type) (f : A -> B) (R : B -> B -> Prop)
  (l : list A) :
  StronglySorted R (map f l) -> StronglySorted (fun a b => R (f a) (f b)) l.
Proof.
  induction l as [|x l IH]; simpl; intros H; [constructor|].
  inversion H as [|? ? Hs Hall]; subst. constructor; [apply IH, Hs|].
  rewrite Forall_forall in *. intros y Hy. apply Hall, in_map, Hy.
Qed.

Lemma StronglySorted_within (R R' : A -> A -> Prop) (l : list A) :
  (forall a b, In a l -> In b l -> R a b -> R' a b) ->
  StronglySorted R l -> StronglySorted R' l.
Proof.
  induction l as [|x l IH]; intros Himp H; [constructor|].
  inversion H as [|? ? Hs Hall]; subst. constructor.
  - apply IH; [|exact Hs]. intros a b Ha Hb. apply Himp; right; assumption.
  - rewrite Forall_forall in *. intros y Hy.
    apply Himp; [left; reflexivity | right; exact Hy | apply Hall, Hy].
Qed.

End Lists.

(** The tokens common to both lists, in the order of the job set. *)
Lemma matched_In (jobTokens resumeTokens : list str) (k : str) :
  In k (filter (fun token => includes (Extract.setOf resumeTokens) token)
               (Extract.setOf jobTokens))
  <-> In k jobTokens /\ In k resumeTokens.
Proof.
  rewrite filter_In, SetFacts.setOf_In, TfIdfFacts.includes_In,
    SetFacts.setOf_In. tauto.
Qed.

(** The frequency the map holds for a matched token. *)
Lemma frequency_get (jobTokens resumeTokens matched : list str) (k : str) :
  In k matched ->
  orZero
    (mget (fold_left
             (fun frequency token =>
                let jobCount := INR (countOf token jobTokens) in
                let resumeCount := INR (countOf token resumeTokens) in
                mset frequency token (jobCount + resumeCount))
             matched []) k)
  = INR (countOf k jobTokens + countOf k resumeTokens).
Proof.
  intros Hin. cbv zeta.
  rewrite (TfIdfFacts.idf_loop_value
             (fun token => INR (countOf token jobTokens)
                           + INR (countOf token resumeTokens))
             matched k [] (or_introl Hin)).
  cbn [orZero]. rewrite plus_INR. reflexivity.
Qed.

Lemma findMatchedKeywords_sound (jobTokens resumeTokens : list str)
  (topN : nat) :
  let keywords := findMatchedKeywords jobTokens resumeTokens topN in
  (forall k, In k keywords -> In k jobTokens /\ In k resumeTokens)
  /\ NoDup keywords
  /\ (length keywords <= topN)%nat
  /\ StronglySorted
       (fun a b =>
          (countOf b jobTokens + countOf b resumeTokens
           <= countOf a jobTokens + countOf a resumeTokens)%nat)
       keywords.
Proof.
  unfold findMatchedKeywords. cbv zeta.
  set (matched := filter (fun token =>
                            includes (Extract.setOf resumeTokens) token)
                         (Extract.setOf jobTokens)).
  set (frequency :=
         fold_left
           (fun (frequency : amap R) token =>
              mset frequency token
                   (INR (countOf token jobTokens)
                    + INR (countOf token resumeTokens)))
           matched []).
  set (sorted := sort (fun a b => orZero (mget frequency b)
                                  - orZero (mget frequency a)) matched).
  assert (Hperm : Permutation sorted matched) by apply sort_perm.
  assert (Hin : forall k, In k (firstn topN sorted) -> In k matched).
  { intros k Hk. apply firstn_In in Hk.
    apply (Permutation_in _ Hperm), Hk. }
  split; [|split; [|split]].
  - intros k Hk. apply matched_In, Hin, Hk.
  - apply firstn_NoDup.
    apply (Permutation_NoDup (Permutation_sym Hperm)).
    apply NoDup_filter, SetMore.setOf_NoDup.
  - apply firstn_le_length.
  - pose proof (sort_sorted (fun a => orZero (mget frequency a)) matched)
      as Hs.
    fold sorted in Hs. apply StronglySorted_map in Hs.
    apply (firstn_StronglySorted topN) in Hs.
    eapply StronglySorted_within; [|exact Hs].
    intros a b Ha Hb Hge. cbv beta in Hge.
    unfold frequency in Hge.
    rewrite !frequency_get in Hge by (apply Hin; assumption).
    apply INR_le. lra.
Qed.

Lemma findMatchedKeywords_complete (jobTokens resumeTokens : list str)
  (topN : nat) (k : str) :
  (length jobTokens <= topN)%nat ->
  In k jobTokens -> In k resumeTokens ->
  In k (findMatchedKeywords jobTokens resumeTokens topN).
Proof.
  intros Hn Hj Hr. unfold findMatchedKeywords. cbv zeta.
  set (matched := filter (fun token =>
                            includes (Extract.setOf resumeTokens) token)
                         (Extract.setOf jobTokens)).
  set (frequency :=
         fold_left
           (fun (frequency : amap R) token =>
              mset frequency token
                   (INR (countOf token jobTokens)
                    + INR (countOf token resumeTokens)))
           matched []).
  set (sorted := sort (fun a b => orZero (mget frequency b)
                                  - orZero (mget frequency a)) matched).
  assert (Hperm : Permutation sorted matched) by apply sort_perm.
  assert (Hlen : (length sorted <= topN)%nat).
  { rewrite (Permutation_length Hperm). unfold matched.
    eapply Nat.le_trans; [apply SignFacts.filter_length_bound|].
    eapply Nat.le_trans; [|exact Hn].
    apply NoDup_incl_length; [apply SetMore.setOf_NoDup|].
    intros x Hx. rewrite SetFacts.setOf_In in Hx. exact Hx. }
  rewrite firstn_all2 by exact Hlen.
  apply (Permutation_in _ (Permutation_sym Hperm)).
  apply matched_In. split; assumption.
Qed.

End KeywordFacts.

(** X3.  Every keyword [findMatchedKeywords] returns occurs in both token
    lists; no keyword is returned twice; at most [topN] are returned; and
    they are listed by combined number of occurrences in the two lists,
    largest first. *)
Theorem findMatchedKeywords_shape (jobTokens resumeTokens : list str)
  (topN : nat) :
  let keywords :=
    Similarity.findMatchedKeywords jobTokens resumeTokens topN in
  (forall k, In k keywords -> In k jobTokens /\ In k resumeTokens)
  /\ NoDup keywords
  /\ (length keywords <= topN)%nat
  /\ StronglySorted
       (fun a b =>
          (countOf b jobTokens + countOf b resumeTokens
           <= countOf a jobTokens + countOf a resumeTokens)%nat)
       keywords.
Proof. apply KeywordFacts.findMatchedKeywords_sound. Qed.

(** X4.  When the limit is not below the number of job tokens, every token
    that occurs in both lists is among the keywords. *)
Theorem findMatchedKeywords_all_common (jobTokens resumeTokens : list str)
  (topN : nat) (k : str)
  (Hn : (length jobTokens <= topN)%nat)
  (Hj : In k jobTokens) (Hr : In k resumeTokens) :
  In k (Similarity.findMatchedKeywords jobTokens resumeTokens topN).
Proof. apply KeywordFacts.findMatchedKeywords_complete; assumption. Qed.

Lemma findMatchedKeywords_all_common_witness :
  In (lit "react")
     (Similarity.findMatchedKeywords
        [lit "senior"; lit "react"; lit "redux"]
        [lit "react"; lit "python"] 10).
Proof.
  apply findMatchedKeywords_all_common.
  - simpl. lia.
  - right; left; reflexivity.
  - left; reflexivity.
Defined.

(** ** The keys of a weight vector *)

Module KeysFacts.
Import Similarity.

Lemma mkeys_mset_list (V : Type) (m : amap V) (k : str) (v : V) :
  mkeys (mset m k v)
  = if existsb (str_eqb k) (mkeys m) then mkeys m else mkeys m ++ [k].
Proof.
  unfold mkeys. induction m as [|[k' v'] m IH]; simpl; [reflexivity|].
  destruct (str_eqb k k') eqn:E; simpl; [reflexivity|].
  rewrite IH. destruct (existsb (str_eqb k) (map fst m)); reflexivity.
Qed.

(** A loop of [set] calls, one per token, lists the keys as the set of the
    tokens does. *)
Lemma token_loop_keys (V : Type) (g : amap V -> str -> V)
  (tokens : list str) :
  forall m : amap V,
    mkeys (fold_left (fun m token => mset m token (g m token)) tokens m)
    = fold_left
        (fun seen x => if existsb (str_eqb x) seen then seen else seen ++ [x])
        tokens (mkeys m).
Proof.
  induction tokens as [|t tokens IH]; intros m; cbn [fold_left];
    [reflexivity|].
  rewrite IH, mkeys_mset_list. reflexivity.
Qed.

Lemma entry_loop_keys (idf : amap R) (entries : amap R) :
  forall m : amap R,
    mkeys (fold_left
             (fun tfidf entry =>
                let '(token, tfValue) := entry in
                mset tfidf token (tfValue * orZero (mget idf token)))
             entries m)
    = fold_left
        (fun seen x => if existsb (str_eqb x) seen then seen else seen ++ [x])
        (mkeys entries) (mkeys m).
Proof.
  induction entries as [|[k v] entries IH]; intros m; cbn [fold_left];
    [reflexivity|].
  rewrite IH, mkeys_mset_list. reflexivity.
Qed.

Lemma calculateTfIdf_keys (tokens : list str) (allTokens : list (list str)) :
  mkeys (calculateTfIdf tokens allTokens) = Extract.setOf tokens.
Proof.
  unfold calculateTfIdf. cbv zeta. rewrite entry_loop_keys.
  rewrite (token_loop_keys
             (fun tf token =>
                orZero (mget tf token) + 1 / INR (length tokens))
             tokens []).
  change (fold_left _ tokens (mkeys [])) with (Extract.setOf tokens).
  apply (SetMore.setOf_fixed (SetMore.setOf_NoDup tokens)).
Qed.

Lemma ln_le (x y : R) : 0 < x -> x <= y -> ln x <= ln y.
Proof.
  intros Hx [Hlt | ->]; [left; apply ln_increasing; assumption | lra].
Qed.

Lemma idfValueOf_antitone (allTokens : list (list str)) (t1 t2 : str) :
  allTokens <> [] ->
  (documentFrequency t1 allTokens <= documentFrequency t2 allTokens)%nat ->
  idfValueOf allTokens t2 <= idfValueOf allTokens t1.
Proof.
  intros Hne Hdf. unfold idfValueOf.
  rewrite !TfIdfFacts.docs_with_token.
  assert (Hn : 0 < INR (length allTokens)).
  { apply lt_0_INR. destruct allTokens; [congruence | simpl; lia]. }
  pose proof (pos_INR (documentFrequency t1 allTokens)) as H1.
  pose proof (le_INR _ _ Hdf) as H12.
  apply ln_le.
  - apply Rdiv_lt_0_compat; lra.
  - unfold Rdiv. apply Rmult_le_compat_l; [lra|].
    apply Rinv_le_contravar; lra.
Qed.

End KeysFacts.

(** X5.  The vector [calculateTfIdf] builds has one entry per distinct token
    of the document, in the order in which the tokens first occur. *)
Theorem calculateTfIdf_entries (tokens : list str)
  (allTokens : list (list str)) :
  mkeys (Similarity.calculateTfIdf tokens allTokens) = Extract.setOf tokens
  /\ NoDup (mkeys (Similarity.calculateTfIdf tokens allTokens)).
Proof.
  rewrite KeysFacts.calculateTfIdf_keys.
  split; [reflexivity | apply SetMore.setOf_NoDup].
Qed.

(** X6.  Of two tokens that occur equally often in a document of the
    corpus, the one found in more documents of the corpus does not get the
    larger weight. *)
Theorem rarer_token_weighs_more (d : list str) (corpus : list (list str))
  (t1 t2 : str)
  (Hd : In d corpus) (H1 : In t1 d) (H2 : In t2 d)
  (Hcount : countOf t1 d = countOf t2 d)
  (Hdf : (Similarity.documentFrequency t1 corpus
          <= Similarity.documentFrequency t2 corpus)%nat) :
  exists w1 w2,
    mget (Similarity.calculateTfIdf d corpus) t1 = Some w1
    /\ mget (Similarity.calculateTfIdf d corpus) t2 = Some w2
    /\ w2 <= w1.
Proof.
  assert (Hne : corpus <> []) by (intros ->; destruct Hd).
  exists (Similarity.tfValueOf d t1 * Similarity.idfValueOf corpus t1),
         (Similarity.tfValueOf d t2 * Similarity.idfValueOf corpus t2).
  rewrite !TfIdfFacts.calculateTfIdf_get.
  rewrite (proj2 (TfIdfFacts.includes_In d t1) H1).
  rewrite (proj2 (TfIdfFacts.includes_In d t2) H2).
  split; [reflexivity|]. split; [reflexivity|].
  pose proof (SignFacts.tfValueOf_pos _ _ H1) as Htf.
  pose proof (KeysFacts.idfValueOf_antitone t1 t2 Hne Hdf) as Hidf.
  unfold Similarity.tfValueOf in *. rewrite <- Hcount.
  apply Rmult_le_compat_l; [lra | exact Hidf].
Qed.

Lemma rarer_token_weighs_more_witness :
  let d := [lit "react"; lit "developer"] in
  let corpus := [d; [lit "python"; lit "developer"]] in
  exists w1 w2,
    mget (Similarity.calculateTfIdf d corpus) (lit "react") = Some w1
    /\ mget (Similarity.calculateTfIdf d corpus) (lit "developer") = Some w2
    /\ w2 <= w1.
Proof.
  intros d corpus.
  apply (@rarer_token_weighs_more d corpus (lit "react") (lit "developer")).
  - left; reflexivity.
  - left; reflexivity.
  - right; left; reflexivity.
  - reflexivity.
  - vm_compute. lia.
Defined.

(** ** Reported scores *)

Module ScoreFacts.
Import Similarity.

Lemma round_bounds (x : R) :
  0 <= x <= 10000 -> 0 <= round x <= 10000.
Proof.
  intros [H0 H1]. unfold round.
  destruct (base_Int_part (x + / 2)) as [Hle Hgt].
  set (z := Int_part (x + / 2)) in *.
  assert (Hz1 : (z < 10001)%Z) by (apply lt_IZR; lra).
  assert (Hz0 : (-1 < z)%Z) by (apply lt_IZR; lra).
  split.
  - apply (IZR_le 0). lia.
  - apply (IZR_le z 10000). lia.
Qed.

(** A score computed by the second loop of the handler. *)
Lemma percent_of_cosine (d1 d2 : list str) (corpus : list (list str)) :
  let similarity :=
    cosineSimilarity (calculateTfIdf d1 corpus) (calculateTfIdf d2 corpus) in
  let similarityPercent := round (similarity * 100 * 100) / 100 in
  0 <= similarityPercent <= 100
  /\ exists z, similarityPercent = IZR z / 100.
Proof.
  cbv zeta.
  pose proof (CosineFacts.cosineSimilarity_same_corpus d1 d2 corpus) as Hc.
  set (c := cosineSimilarity _ _) in *.
  assert (Hr : 0 <= round (c * 100 * 100) <= 10000)
    by (apply round_bounds; lra).
  split; [lra|]. eexists. unfold round. reflexivity.
Qed.

Lemma scoreAll_wellFormed (jobPosting : JobPosting) (resumes : list Resume) :
  Forall (Reported.wellFormed jobPosting) (scoreAll jobPosting resumes).
Proof.
  unfold scoreAll. cbv zeta. apply Forall_forall. intros r Hin.
  apply in_map_iff in Hin. destruct Hin as [resume [<- _]].
  unfold Reported.wellFormed. cbn [similarity matchedKeywords].
  destruct (percent_of_cosine (jobTokensOf jobPosting)
              (tokensFor (resumeTokensMapOf resumes) resume)
              (jobTokensOf jobPosting
               :: map (fun resume => Tokenizer.tokenize (extracted_text resume))
                      resumes)) as [Hb Hz].
  destruct (KeywordFacts.findMatchedKeywords_sound (jobTokensOf jobPosting)
              (tokensFor (resumeTokensMapOf resumes) resume) 10)
    as [Hin [_ [Hlen _]]].
  repeat split; try apply Hb; try exact Hz; try exact Hlen.
  intros k Hk. apply Hin, Hk.
Qed.

End ScoreFacts.

(** C2, amended.  Two term-weight vectors computed against the same corpus,
    as all vectors of one ranking run are, have a cosine similarity that is
    not negative, whatever the sign of their weights: a token has the same
    idf factor in both, so no product of weights is negative.  The score
    reported for them, [round (similarity * 100 * 100) / 100], lies between
    0 and 100.  And the cosine similarity of any two vectors is [0] as soon
    as all weights of one of them are zero.  (That the similarity itself is
    at most 1 is true of exact arithmetic only and is not stated: the
    rounding of the code can leave it one unit in the last place above 1,
    which [Math.round] then removes.) *)
Theorem cosineSimilarity_bounds (corpus : list (list str))
  (d1 d2 : list str) (H1 : In d1 corpus) (H2 : In d2 corpus) :
  let similarity :=
    Similarity.cosineSimilarity (Similarity.calculateTfIdf d1 corpus)
                                (Similarity.calculateTfIdf d2 corpus) in
  0 <= similarity
  /\ 0 <= round (similarity * 100 * 100) / 100 <= 100
  /\ (forall vec1 vec2,
        Similarity.zeroVector vec1 \/ Similarity.zeroVector vec2 ->
        Similarity.cosineSimilarity vec1 vec2 = 0).
Proof.
  cbv zeta.
  split; [apply CosineFacts.cosineSimilarity_same_corpus|].
  split; [apply (ScoreFacts.percent_of_cosine d1 d2 corpus)|].
  apply CosineFacts.cosineSimilarity_zero.
Qed.

Lemma cosineSimilarity_bounds_witness :
  let d := [lit "abc"] in
  let corpus := [d; [lit "abc"; lit "xyz"]] in
  let similarity :=
    Similarity.cosineSimilarity
      (Similarity.calculateTfIdf d corpus)
      (Similarity.calculateTfIdf [lit "abc"; lit "xyz"] corpus) in
  0 <= similarity /\ 0 <= round (similarity * 100 * 100) / 100 <= 100.
Proof.
  intros d corpus similarity.
  destruct (@cosineSimilarity_bounds corpus d [lit "abc"; lit "xyz"])
    as [Hpos [Hscore _]].
  - left; reflexivity.
  - right; left; reflexivity.
  - split; assumption.
Defined.

(** X7.  Whatever a ranking run returns on success, it returns one result
    and one row per fetched resume, and every result carries a score
    between 0 and 100 that is a whole number of hundredths, and at most ten
    matched keywords, each a token of the job posting; the rows carry the
    scores of the results. *)
Theorem rankingRun_results_wellFormed (jobPostingId : str)
  (jobPosting : Similarity.JobPosting) (resumes : list Similarity.Resume)
  (insertError : option str)
  (results : list Similarity.Result) (rows : list Similarity.Row) (n : nat)
  (Hrun : Similarity.rankingRun jobPostingId jobPosting resumes insertError
          = Similarity.Success results rows n) :
  n = length resumes
  /\ length results = n
  /\ length rows = n
  /\ Forall (Reported.wellFormed jobPosting) results
  /\ map Similarity.similarity_score rows
     = map Similarity.similarity results.
Proof.
  unfold Similarity.rankingRun in Hrun.
  destruct resumes as [|r0 resumes0] eqn:Hres; [discriminate Hrun|].
  rewrite <- Hres in *.
  destruct insertError as [message|]; [discriminate Hrun|].
  inversion Hrun; subst results rows n. clear Hrun.
  set (scored := Similarity.scoreAll jobPosting resumes).
  pose proof (RankingFacts.sortResults_perm scored) as Hperm.
  destruct (RankingFacts.insertDataOf_spec jobPostingId
              (Similarity.sortResults scored)) as [_ [Hids [Hscores _]]].
  assert (Hlen : length (Similarity.sortResults scored) = length resumes).
  { rewrite (Permutation_length Hperm).
    unfold scored, Similarity.scoreAll; cbv zeta; apply length_map. }
  split; [reflexivity|]. split; [exact Hlen|]. split.
  { rewrite <- (length_map Similarity.resume_id), Hids, length_map.
    exact Hlen. }
  split; [|exact Hscores].
  apply (Permutation_Forall (Permutation_sym Hperm)).
  apply ScoreFacts.scoreAll_wellFormed.
Qed.

Lemma rankingRun_results_wellFormed_witness :
  let jobPosting :=
    {| Similarity.job_id := lit "job-1";
       Similarity.description := lit "React developer";
       Similarity.requirements := None |} in
  let resumes :=
    [ {| Similarity.id := lit "resume-1";
         Similarity.extracted_text := lit "Python developer" |} ] in
  Forall (Reported.wellFormed jobPosting)
         (Similarity.sortResults (Similarity.scoreAll jobPosting resumes)).
Proof.
  intros jobPosting resumes.
  assert (Hne : resumes <> []) by discriminate.
  apply (@rankingRun_results_wellFormed _ _ _ _ _ _ _
           (RankingFacts.rankingRun_success (lit "job-1") jobPosting Hne)).
Defined.

(** X8.  To an [OPTIONS] request the similarity handler replies without
    running anything.  To any other request, with a decoded body, it
    answers with a success exactly when the authorization header is present
    and not empty, the body has a job identifier and at least one resume
    identifier, both queries return data, at least one resume was fetched
    and the insertion reports no error; otherwise it answers with a
    failure. *)
Theorem handler_succeeds_iff (method : str) (authHeader : option str)
  (matchRequest : Similarity.MatchRequest)
  (jobQuery : option Similarity.JobPosting)
  (resumeQuery : option (list Similarity.Resume))
  (insertError : option str) :
  let reply :=
    Similarity.handler method authHeader matchRequest jobQuery resumeQuery
      insertError in
  (method = lit "OPTIONS" -> reply = Similarity.Preflight)
  /\ (method <> lit "OPTIONS" ->
      ((exists results rows n,
          reply = Similarity.Answered (Similarity.Success results rows n))
       <-> ((exists value, authHeader = Some value /\ value <> [])
            /\ Similarity.jobPostingId matchRequest <> []
            /\ (exists ids, Similarity.resumeIds matchRequest = Some ids
                            /\ ids <> [])
            /\ jobQuery <> None
            /\ (exists resumes, resumeQuery = Some resumes /\ resumes <> [])
            /\ insertError = None))
      /\ ((exists results rows n,
             reply = Similarity.Answered (Similarity.Success results rows n))
          \/ (exists message,
                reply = Similarity.Answered (Similarity.Failure message)))).
Proof.
  cbv zeta. unfold Similarity.handler.
  destruct (str_eqb method (lit "OPTIONS")) eqn:Em.
  { apply str_eqb_eq in Em.
    split; [reflexivity | intros H; contradiction]. }
  apply str_eqb_neq in Em. split; [intros H; contradiction|]. intros _.
  destruct matchRequest as [jid rids].
  cbn [Similarity.jobPostingId Similarity.resumeIds].
  unfold Similarity.rankingRun.
  assert (Hfail : forall (message : str) (C : Prop),
             ~ C ->
             ((exists results rows n,
                 Similarity.Answered (Similarity.Failure message)
                 = Similarity.Answered (Similarity.Success results rows n))
              <-> C)
             /\ ((exists results rows n,
                    Similarity.Answered (Similarity.Failure message)
                    = Similarity.Answered
                        (Similarity.Success results rows n))
                 \/ (exists message',
                       Similarity.Answered (Similarity.Failure message)
                       = Similarity.Answered (Similarity.Failure message')))).
  { intros message C HC. split.
    - split; [intros [? [? [? H]]]; discriminate H | intros H; contradiction].
    - right. eexists. reflexivity. }
  destruct authHeader as [[|h value]|]; cbn [Extract.missing Extract.isEmpty];
    try (apply Hfail; intros [[v [Ha Hv]] _]; congruence).
  destruct rids as [[|i ids]|];
    try (apply Hfail; intros [_ [_ [[x [Hi Hi']] _]]]; congruence).
  { destruct jid; cbn [Extract.isEmpty orb length Nat.eqb];
      try rewrite orb_true_r;
      apply Hfail; intros [_ [_ [[x [Hi Hi']] _]]]; congruence. }
  destruct jid as [|j jid]; cbn [Extract.isEmpty orb length Nat.eqb];
    try (apply Hfail; intros [_ [Hj _]]; congruence).
  destruct jobQuery as [jobPosting|];
    try (apply Hfail; intros [_ [_ [_ [Hq _]]]]; congruence).
  destruct resumeQuery as [[|r resumes]|];
    try (apply Hfail; intros [_ [_ [_ [_ [[x [Hr Hr']] _]]]]]; congruence).
  destruct insertError as [message|];
    try (apply Hfail; intros [_ [_ [_ [_ [_ Hins]]]]]; congruence).
  split.
  - split; [intros _ | intros _; do 3 eexists; reflexivity].
    split; [exists (h :: value); split; [reflexivity | discriminate]|].
    split; [discriminate|].
    split; [exists (i :: ids); split; [reflexivity | discriminate]|].
    split; [discriminate|].
    split; [exists (r :: resumes); split; [reflexivity | discriminate]|].
    reflexivity.
  - left. do 3 eexists. reflexivity.
Qed.

Lemma handler_succeeds_iff_witness :
  let request :=
    {| Similarity.jobPostingId := lit "job-1";
       Similarity.resumeIds := Some [lit "resume-1"] |} in
  let jobPosting :=
    {| Similarity.job_id := lit "job-1";
       Similarity.description := lit "React developer";
       Similarity.requirements := None |} in
  let resume :=
    {| Similarity.id := lit "resume-1";
       Similarity.extracted_text := lit "React developer" |} in
  (exists results rows n,
     Similarity.handler (lit "POST") (Some (lit "Bearer key")) request
       (Some jobPosting) (Some [resume]) None
     = Similarity.Answered (Similarity.Success results rows n))
  /\ ~ (exists results rows n,
          Similarity.handler (lit "POST") (Some []) request
            (Some jobPosting) (Some [resume]) None
          = Similarity.Answered (Similarity.Success results rows n))
  /\ Similarity.handler (lit "OPTIONS") None request None None None
     = Similarity.Preflight.
Proof.
  intros request jobPosting resume.
  assert (Hpost : lit "POST" <> lit "OPTIONS") by discriminate.
  split; [|split].
  - apply (proj1 (proj2 (handler_succeeds_iff (lit "POST")
                           (Some (lit "Bearer key")) request
                           (Some jobPosting) (Some [resume]) None) Hpost)).
    split; [eexists; split; [reflexivity | discriminate]|].
    split; [discriminate|].
    split; [eexists; split; [reflexivity | discriminate]|].
    split; [discriminate|].
    split; [eexists; split; [reflexivity | discriminate] | reflexivity].
  - intros H.
    apply (proj1 (proj2 (handler_succeeds_iff (lit "POST") (Some []) request
                           (Some jobPosting) (Some [resume]) None) Hpost))
      in H.
    destruct H as [[value [Ha Hv]] _]. congruence.
  - apply (proj1 (handler_succeeds_iff (lit "OPTIONS") None request
                    None None None)).
    reflexivity.
Defined.

(** ** Tokenizer: separators and tokens *)

Module TokenizerMore.
Import Tokenizer.

Lemma tokenize_words (text : str) :
  tokenize text
  = filter (fun word => (2 <? length word)%nat)
           (wordsOf [] (replaceOther (toLowerCase text))).
Proof.
  unfold tokenize. apply TokenizerFacts.splitSpaces_wordsOf; auto.
Qed.

Lemma wordsOf_separator (sp : ascii) (s1 s2 : str) :
  isSpace sp = true ->
  forall cur,
    wordsOf cur (s1 ++ sp :: s2) = wordsOf cur s1 ++ wordsOf [] s2.
Proof.
  intros Hsp. induction s1 as [|c s1 IH]; intros cur; simpl.
  - rewrite Hsp. destruct cur; reflexivity.
  - destruct (isSpace c).
    + destruct cur; rewrite IH; reflexivity.
    + apply IH.
Qed.

Lemma wordsOf_no_space (s : str) :
  Forall (fun c => isSpace c = false) s ->
  forall cur,
    wordsOf cur s
    = match rev cur ++ s with [] => [] | w => [w] end.
Proof.
  induction 1 as [|c s Hc Hs IH]; intros cur; simpl.
  - rewrite app_nil_r. destruct cur as [|x cur]; [reflexivity|].
    simpl. destruct (rev cur ++ [x]) eqn:E; [|reflexivity].
    destruct (rev cur); discriminate E.
  - rewrite Hc, IH. simpl. rewrite <- app_assoc. reflexivity.
Qed.

(** What a separator becomes before the text is split. *)
Lemma separator_becomes_space (c : ascii) :
  (isLowerAz (lowerChar c) || isDigit (lowerChar c)) = false ->
  isSpace (if keptChar (lowerChar c) then lowerChar c else space) = true.
Proof.
  intros H. unfold keptChar. rewrite H. simpl.
  destruct (isSpace (lowerChar c)) eqn:E; [exact E | reflexivity].
Qed.

Lemma tokenize_separator (c : ascii) (a b : str) :
  (isLowerAz (lowerChar c) || isDigit (lowerChar c)) = false ->
  tokenize (a ++ c :: b) = tokenize a ++ tokenize b.
Proof.
  intros Hc. rewrite !tokenize_words.
  unfold toLowerCase, replaceOther. rewrite !map_app. cbn [map].
  rewrite (wordsOf_separator _ _ _ (separator_becomes_space c Hc)).
  apply filter_app.
Qed.

Lemma token_chars_fixed (token : str) :
  Forall (fun c => (isLowerAz c || isDigit c) = true) token ->
  replaceOther (toLowerCase token) = token.
Proof.
  induction 1 as [|c token Hc Ht IH]; [reflexivity|].
  unfold replaceOther, toLowerCase in *. cbn [map]. rewrite IH.
  unfold lowerChar. rewrite (lower_alnum_not_upper c Hc).
  unfold keptChar. rewrite Hc. reflexivity.
Qed.

Lemma tokenize_token (token : str) :
  Forall (fun c => (isLowerAz c || isDigit c) = true) token ->
  (2 < length token)%nat ->
  tokenize token = [token].
Proof.
  intros Hchars Hlen. rewrite tokenize_words, token_chars_fixed by exact Hchars.
  rewrite wordsOf_no_space
    by (eapply Forall_impl; [|exact Hchars];
        intros c Hc; apply lower_alnum_not_space, Hc).
  destruct token as [|c token]; [simpl in Hlen; lia|].
  cbn [rev app filter].
  apply Nat.ltb_lt in Hlen. rewrite Hlen. reflexivity.
Qed.

Lemma tokenize_tokens (text : str) :
  Forall (fun token =>
            Forall (fun c => (isLowerAz c || isDigit c) = true) token
            /\ (2 < length token)%nat)
         (tokenize text).
Proof.
  unfold tokenize. apply Forall_forall. intros w Hw.
  apply filter_In in Hw. destruct Hw as [Hin Hlen].
  apply Nat.ltb_lt in Hlen. split; [|exact Hlen].
  pose proof (TokenizerFacts.splitSpaces_pieces
                (P := fun c => (isLowerAz c || isDigit c) = true)
                (TokenizerFacts.replaceOther_chars (toLowerCase text))
                false (cur := []) (Forall_nil _)) as Hall.
  rewrite Forall_forall in Hall. apply Hall, Hin.
Qed.

Lemma lowerChar_idempotent (c : ascii) : lowerChar (lowerChar c) = lowerChar c.
Proof.
  unfold lowerChar at 1. rewrite lowerChar_not_upper. reflexivity.
Qed.

End TokenizerMore.

(** X9.  On Latin-1 text, a character that is neither a letter of [a-z],
    [A-Z] nor a digit separates tokens: the tokens of two texts joined by it
    are the tokens of the first followed by those of the second. *)
Theorem tokenize_across_separator (c : ascii) (a b : str)
  (Hc : (isLowerAz (lowerChar c) || isDigit (lowerChar c)) = false) :
  Tokenizer.tokenize (a ++ c :: b)
  = Tokenizer.tokenize a ++ Tokenizer.tokenize b.
Proof. apply TokenizerMore.tokenize_separator, Hc. Qed.

Lemma tokenize_across_separator_witness :
  Tokenizer.tokenize (lit "React" ++ ","%char :: lit "Redux")
  = Tokenizer.tokenize (lit "React") ++ Tokenizer.tokenize (lit "Redux").
Proof.
  apply (@tokenize_across_separator ","%char). reflexivity.
Defined.

(** X11.  The tokens of a job posting are the tokens of its description
    followed by the tokens of its requirements. *)
Theorem jobTokensOf_concat (jobPosting : Similarity.JobPosting) :
  Similarity.jobTokensOf jobPosting
  = Tokenizer.tokenize (Similarity.description jobPosting)
    ++ Tokenizer.tokenize
         (Similarity.orEmpty (Similarity.requirements jobPosting)).
Proof.
  unfold Similarity.jobTokensOf.
  apply (@TokenizerMore.tokenize_separator space). reflexivity.
Qed.

(** X10.  Tokenizing is stable: each token of a text, tokenized again, is
    that one token; and the tokens do not depend on the case of the
    letters of the text. *)
Theorem tokenize_stable (text : str) :
  Forall (fun token => Tokenizer.tokenize token = [token])
         (Tokenizer.tokenize text)
  /\ Tokenizer.tokenize (toLowerCase text) = Tokenizer.tokenize text.
Proof.
  split.
  - eapply Forall_impl; [|apply TokenizerMore.tokenize_tokens].
    intros token [Hchars Hlen].
    apply TokenizerMore.tokenize_token; assumption.
  - unfold Tokenizer.tokenize, toLowerCase. rewrite map_map.
    rewrite (map_ext _ lowerChar TokenizerMore.lowerChar_idempotent).
    reflexivity.
Qed.

(** ** Matches of a regular expression *)

Module RegexMore.
Import Regex RegexShape.

Lemma matchHere_Many (min : nat) (cls : ascii -> bool) (rest : regex)
  (prev : option ascii) (s : str) :
  matchHere (Many min cls :: rest) prev s
  = manyFrom (matchHere rest) min cls 0 prev s.
Proof. reflexivity. Qed.

Lemma anyClass_cons (item : ritem) (rest : regex) (c : ascii) :
  anyClass rest c = true -> anyClass (item :: rest) c = true.
Proof. unfold anyClass. simpl. intros ->. apply orb_true_r. Qed.

Lemma manyFrom_shape (next : option ascii -> str -> option nat)
  (min : nat) (cls : ascii -> bool) (rest : regex) :
  (forall prev s n, next prev s = Some n -> matchShape rest s n) ->
  forall s n0 prev k,
    manyFrom next min cls n0 prev s = Some k ->
    (k <= length s)%nat
    /\ (min + minLength rest <= n0 + k)%nat
    /\ Forall (fun c => anyClass (Many min cls :: rest) c = true)
              (firstn k s)
    /\ forall cls0, In (One cls0) rest ->
                    exists c, In c (firstn k s) /\ cls0 c = true.
Proof.
  intros Hnext.
  assert (Hstop : forall s n0 prev k,
             (if (min <=? n0)%nat then next prev s else None) = Some k ->
             (k <= length s)%nat
             /\ (min + minLength rest <= n0 + k)%nat
             /\ Forall (fun c => anyClass (Many min cls :: rest) c = true)
                       (firstn k s)
             /\ forall cls0, In (One cls0) rest ->
                             exists c, In c (firstn k s) /\ cls0 c = true).
  { intros s n0 prev k H.
    destruct (Nat.leb_spec min n0) as [Hle|]; [|discriminate H].
    destruct (Hnext _ _ _ H) as [H1 [H2 [H3 H4]]].
    split; [exact H1|]. split; [lia|]. split; [|exact H4].
    eapply Forall_impl; [|exact H3]. intros c. apply anyClass_cons. }
  induction s as [|c s IH]; intros n0 prev k H.
  - apply (Hstop [] n0 prev k). exact H.
  - cbn [manyFrom] in H. destruct (cls c) eqn:Ec.
    + destruct (manyFrom next min cls (S n0) (Some c) s) as [k'|] eqn:Em.
      * inversion H; subst k. clear H.
        destruct (IH _ _ _ Em) as [H1 [H2 [H3 H4]]].
        split; [simpl; lia|]. split; [lia|]. split.
        -- cbn [firstn]. constructor; [|exact H3].
           unfold anyClass. simpl. rewrite Ec. reflexivity.
        -- intros cls0 Hin. destruct (H4 cls0 Hin) as [x [Hx Hc]].
           exists x. split; [right; exact Hx | exact Hc].
      * apply (Hstop (c :: s) n0 prev k). exact H.
    + apply (Hstop (c :: s) n0 prev k). exact H.
Qed.

Lemma matchHere_shape (items : regex) :
  forall prev s n, matchHere items prev s = Some n -> matchShape items s n.
Proof.
  induction items as [|item rest IH]; intros prev s n H.
  - simpl in H. inversion H; subst n. unfold matchShape. simpl.
    split; [lia|]. split; [lia|]. split; [constructor|]. intros cls [].
  - destruct item as [cls|min cls|].
    + destruct s as [|c s]; [discriminate H|]. simpl in H.
      destruct (cls c) eqn:Ec; [|discriminate H].
      destruct (matchHere rest (Some c) s) as [n'|] eqn:Em;
        [|discriminate H].
      inversion H; subst n. clear H.
      destruct (IH _ _ _ Em) as [H1 [H2 [H3 H4]]].
      unfold matchShape. cbn [length firstn minLength fold_right minWidth].
      split; [lia|]. split; [fold (minLength rest); lia|]. split.
      * constructor.
        -- unfold anyClass. simpl. rewrite Ec. reflexivity.
        -- eapply Forall_impl; [|exact H3]. intros x. apply anyClass_cons.
      * intros cls0 [Heq|Hin].
        -- inversion Heq; subst cls0. exists c. split;
             [left; reflexivity | exact Ec].
        -- destruct (H4 cls0 Hin) as [x [Hx Hc]].
           exists x. split; [right; exact Hx | exact Hc].
    + rewrite matchHere_Many in H.
      destruct (manyFrom_shape (matchHere rest) min cls (rest := rest) IH
                  s 0 prev H) as [H1 [H2 [H3 H4]]].
      unfold matchShape. cbn [minLength fold_right minWidth].
      fold (minLength rest).
      split; [exact H1|]. split; [lia|]. split; [exact H3|].
      intros cls0 [Heq|Hin]; [discriminate Heq | apply H4, Hin].
    + simpl in H.
      destruct (xorb (isWordAt prev) (isWordAt (hd_error s)));
        [|discriminate H].
      destruct (IH _ _ _ H) as [H1 [H2 [H3 H4]]].
      unfold matchShape. cbn [minLength fold_right minWidth].
      fold (minLength rest).
      split; [exact H1|]. split; [lia|]. split.
      * eapply Forall_impl; [|exact H3]. intros x. apply anyClass_cons.
      * intros cls0 [Heq|Hin]; [discriminate Heq | apply H4, Hin].
Qed.

Lemma search_found (items : regex) (s : str) :
  forall prev i n,
    search items prev s = Some (i, n) ->
    (i <= length s)%nat
    /\ exists prev', matchHere items prev' (skipn i s) = Some n.
Proof.
  induction s as [|c s IH]; intros prev i n H.
  - cbn [search] in H.
    destruct (matchHere items prev []) as [m|] eqn:Em; [|discriminate H].
    inversion H; subst. split; [simpl; lia|]. exists prev. exact Em.
  - cbn [search] in H.
    destruct (matchHere items prev (c :: s)) as [m|] eqn:Em.
    + inversion H; subst. split; [simpl; lia|]. exists prev. exact Em.
    + destruct (search items (Some c) s) as [[i' n']|] eqn:Es;
        [|discriminate H].
      inversion H; subst. destruct (IH _ _ _ Es) as [Hi [prev' Hm]].
      split; [simpl; lia|]. exists prev'. exact Hm.
Qed.

(** What [match0] returns occurs in the text and has the shape of a
    match. *)
Lemma match0_shape (items : regex) (s e : str) :
  match0 items s = Some e ->
  ExtractShape.occursIn e s
  /\ (minLength items <= length e)%nat
  /\ Forall (fun c => anyClass items c = true) e
  /\ forall cls, In (One cls) items -> exists c, In c e /\ cls c = true.
Proof.
  unfold match0. intros H.
  destruct (search items None s) as [[i n]|] eqn:Es; [|discriminate H].
  inversion H; subst e. clear H.
  destruct (search_found _ _ _ Es) as [Hi [prev' Hm]].
  destruct (matchHere_shape _ _ _ Hm) as [H1 [H2 [H3 H4]]].
  split.
  - exists (firstn i s), (skipn n (skipn i s)).
    rewrite (firstn_skipn n (skipn i s)), (firstn_skipn i s). reflexivity.
  - rewrite length_firstn, Nat.min_l by exact H1. auto.
Qed.

End RegexMore.

(** ** Metadata extraction: what is returned *)

Module ExtractMore.
Import Extract ExtractShape.

Lemma emailRegex_chars (c : ascii) :
  RegexShape.anyClass emailRegex c = true -> emailChar c = true.
Proof. by_cases_on_char c. Qed.

Lemma occursIn_In (e text : str) (c : ascii) :
  occursIn e text -> In c e -> In c text.
Proof.
  intros [before [after ->]] Hin.
  apply in_or_app; right. apply in_or_app; left. exact Hin.
Qed.

Lemma extractEmail_found (text e : str) :
  extractEmail text = Some e ->
  occursIn e text
  /\ (6 <= length e)%nat
  /\ Forall (fun c => emailChar c = true) e
  /\ In "@"%char e.
Proof.
  unfold extractEmail. intros H.
  destruct (RegexMore.match0_shape _ _ H) as [Hocc [Hlen [Hchars Hone]]].
  split; [exact Hocc|]. split; [exact Hlen|]. split.
  - eapply Forall_impl; [|exact Hchars]. apply emailRegex_chars.
  - destruct (Hone (Ascii.eqb "@"%char)) as [c [Hc Heq]].
    + right; left; reflexivity.
    + apply Ascii.eqb_eq in Heq. subst c. exact Hc.
Qed.

(** *** Cleaning *)

Lemma dropSpaces_length (s : str) : (length (dropSpaces s) <= length s)%nat.
Proof.
  induction s as [|c s IH]; simpl; [lia|].
  destruct (isSpace c); simpl; lia.
Qed.

Lemma trim_length (s : str) : (length (trim s) <= length s)%nat.
Proof.
  unfold trim. rewrite length_rev.
  eapply Nat.le_trans; [apply dropSpaces_length|].
  rewrite length_rev. apply dropSpaces_length.
Qed.

Lemma collapseSpaces_length (s : str) :
  forall inRun, (length (collapseSpaces inRun s) <= length s)%nat.
Proof.
  induction s as [|c s IH]; intros inRun; simpl; [lia|].
  pose proof (IH true) as Ht. pose proof (IH false) as Hf.
  destruct (isSpace c); [destruct inRun|]; simpl; lia.
Qed.

Lemma cleanText_chars (text : str) :
  Forall (fun c => isWord c = true \/ c = space
                   \/ c = "@"%char \/ c = "."%char \/ c = "-"%char)
         (cleanText text).
Proof.
  unfold cleanText. apply StringFacts.trim_Forall.
  apply Forall_forall. intros c Hin.
  apply in_map_iff in Hin. destruct Hin as [x [<- Hx]].
  pose proof (CleanFacts.collapseSpaces_onlySpaces text false) as Hall.
  unfold onlySpaces in Hall. rewrite Forall_forall in Hall.
  specialize (Hall x Hx).
  destruct (cleanKept x) eqn:Ek; [|right; left; reflexivity].
  unfold cleanKept in Ek.
  destruct (isWord x) eqn:Ew; [left; reflexivity|].
  destruct (isSpace x) eqn:Es; [right; left; apply Hall; reflexivity|].
  simpl in Ek. unfold isOneOf in Ek. simpl in Ek.
  repeat rewrite orb_true_iff in Ek. rewrite !Ascii.eqb_eq in Ek.
  intuition.
Qed.

(** *** Name *)

Lemma splitChar_pieces (sep : ascii) (s : str) :
  forall cur,
    ~ In sep cur ->
    Forall (fun piece => ~ In sep piece) (splitChar sep cur s).
Proof.
  induction s as [|c s IH]; intros cur Hcur; simpl.
  - constructor; [|constructor]. rewrite <- in_rev. exact Hcur.
  - destruct (Ascii.eqb_spec c sep) as [->|Hne].
    + constructor; [rewrite <- in_rev; exact Hcur | apply IH; intros []].
    + apply IH. intros [H|H]; [congruence | contradiction].
Qed.

Lemma extractName_found (text name : str) :
  extractName text = Some name ->
  (0 < length name < 50)%nat
  /\ existsb isDigit name = false
  /\ ~ In newline name
  /\ trim name = name
  /\ exists line, In line (splitChar newline [] text) /\ name = trim line.
Proof.
  unfold extractName.
  destruct (filter (fun line => (0 <? length (trim line))%nat)
                   (splitChar newline [] text)) as [|line0 lines] eqn:E;
    [discriminate|].
  assert (Hin : In line0 (filter (fun line => (0 <? length (trim line))%nat)
                                 (splitChar newline [] text)))
    by (rewrite E; left; reflexivity).
  apply filter_In in Hin. destruct Hin as [Hline Hpos].
  apply Nat.ltb_lt in Hpos.
  destruct (Nat.ltb_spec (length (trim line0)) 50) as [Hlt|]; simpl;
    [|discriminate].
  rewrite RegexFacts.test_One.
  destruct (existsb isDigit (trim line0)) eqn:Ed; simpl; [discriminate|].
  intros H; inversion H; subst name. clear H.
  split; [lia|]. split; [exact Ed|]. split; [|split].
  - pose proof (@splitChar_pieces newline text [] (fun H => H)) as Hall.
    rewrite Forall_forall in Hall. specialize (Hall _ Hline).
    assert (Hno : Forall (fun c => c <> newline) line0).
    { apply Forall_forall. intros c Hc ->. contradiction. }
    apply (@StringFacts.trim_Forall (fun c => c <> newline)) in Hno.
    rewrite Forall_forall in Hno. intros Hnl.
    apply (Hno _ Hnl). reflexivity.
  - apply StringFacts.trim_trim.
  - exists line0. split; [exact Hline | reflexivity].
Qed.

(** *** Skills *)

Lemma found_loop (p : str -> bool) (f : str -> str) (vocabulary : list str) :
  forall found,
    fold_left
      (fun found skill => if p skill then found ++ [f skill] else found)
      vocabulary found
    = found ++ map f (filter p vocabulary).
Proof.
  induction vocabulary as [|skill vocabulary IH]; intros found;
    cbn [fold_left filter map].
  - rewrite app_nil_r; reflexivity.
  - rewrite IH. destruct (p skill); [|reflexivity].
    cbn [map]. rewrite <- app_assoc. reflexivity.
Qed.

Lemma NoDup_map_filter (p : str -> bool) (f : str -> str) (l : list str) :
  NoDup (map f l) -> NoDup (map f (filter p l)).
Proof.
  induction l as [|x l IH]; simpl; intros H; [constructor|].
  inversion H as [|? ? Hnotin Hnd]; subst.
  destruct (p x); [|apply IH, Hnd].
  cbn [map]. constructor; [|apply IH, Hnd].
  intros Hin. apply Hnotin.
  apply in_map_iff in Hin. destruct Hin as [y [Hy Hf]].
  apply filter_In in Hf. apply in_map_iff. exists y. tauto.
Qed.

Lemma extractSkillsFrom_filter (vocabulary : list str) (text : str) :
  NoDup (map unescapePlus vocabulary) ->
  extractSkillsFrom vocabulary text
  = map unescapePlus
        (filter (fun skill => Regex.test (skillRegex skill) (toLowerCase text))
                vocabulary).
Proof.
  intros Hnd. unfold extractSkillsFrom. cbv zeta.
  rewrite (found_loop
             (fun skill => Regex.test (skillRegex skill) (toLowerCase text))
             unescapePlus vocabulary []).
  cbn [app]. apply SetMore.setOf_fixed, NoDup_map_filter, Hnd.
Qed.

Lemma extractSkillsFrom_NoDup (vocabulary : list str) (text : str) :
  NoDup (extractSkillsFrom vocabulary text).
Proof. unfold extractSkillsFrom. cbv zeta. apply SetMore.setOf_NoDup. Qed.

Lemma extractSkillsFrom_lower (vocabulary : list str) (text : str) :
  extractSkillsFrom vocabulary (toLowerCase text)
  = extractSkillsFrom vocabulary text.
Proof.
  unfold extractSkillsFrom. cbv zeta.
  assert (E : toLowerCase (toLowerCase text) = toLowerCase text).
  { unfold toLowerCase. rewrite map_map.
    apply map_ext, TokenizerMore.lowerChar_idempotent. }
  rewrite E. reflexivity.
Qed.

Lemma vocabulary_distinct : NoDup (map unescapePlus commonSkills).
Proof.
  assert (E : setOf (map unescapePlus commonSkills)
              = map unescapePlus commonSkills)
    by (vm_compute; reflexivity).
  rewrite <- E. apply SetMore.setOf_NoDup.
Qed.

Lemma vocabulary_size : length commonSkills = 57%nat.
Proof. vm_compute; reflexivity. Qed.

End ExtractMore.

(** X12.  An address returned by [extractEmail] occurs in the text, has at
    least six characters, all of them letters, digits or one of
    [._%+-@], and contains an [@]. *)
Theorem extractEmail_result (text e : str)
  (Hfound : Extract.extractEmail text = Some e) :
  ExtractShape.occursIn e text
  /\ (6 <= length e)%nat
  /\ Forall (fun c => ExtractShape.emailChar c = true) e
  /\ In "@"%char e.
Proof. apply ExtractMore.extractEmail_found, Hfound. Qed.

Lemma extractEmail_result_witness :
  ExtractShape.occursIn (lit "jane.doe+hr@example.co.uk")
    (lit "Contact: jane.doe+hr@example.co.uk for details")
  /\ In "@"%char (lit "jane.doe+hr@example.co.uk").
Proof.
  assert (H : Extract.extractEmail
                (lit "Contact: jane.doe+hr@example.co.uk for details")
              = Some (lit "jane.doe+hr@example.co.uk"))
    by (vm_compute; reflexivity).
  destruct (extractEmail_result _ H) as [Hocc [_ [_ Hat]]].
  split; assumption.
Defined.

(** X13.  A text without an [@] has no address: [extractEmail] returns
    [null]. *)
Theorem extractEmail_needs_at (text : str)
  (Hno : ~ In "@"%char text) :
  Extract.extractEmail text = None.
Proof.
  destruct (Extract.extractEmail text) as [e|] eqn:E; [|reflexivity].
  destruct (ExtractMore.extractEmail_found _ E) as [Hocc [_ [_ Hat]]].
  elim Hno. apply (@ExtractMore.occursIn_In e text _ Hocc Hat).
Qed.

Lemma extractEmail_needs_at_witness :
  Extract.extractEmail (lit "call me on 555 0100") = None.
Proof.
  apply extractEmail_needs_at.
  assert (H : existsb (Ascii.eqb "@"%char) (lit "call me on 555 0100") = false)
    by (vm_compute; reflexivity).
  intros Hin.
  assert (H' : existsb (Ascii.eqb "@"%char) (lit "call me on 555 0100") = true).
  { apply existsb_exists. exists "@"%char. split; [exact Hin | reflexivity]. }
  congruence.
Defined.

(** X14.  A cleaned text holds only word characters, single-character
    spaces, [@], [.] and [-]; it neither begins nor ends with a space; and
    it is never longer than the text it was made from. *)
Theorem cleanText_shape (text : str) :
  Forall (fun c => isWord c = true \/ c = space
                   \/ c = "@"%char \/ c = "."%char \/ c = "-"%char)
         (Extract.cleanText text)
  /\ headNotSpace (Extract.cleanText text)
  /\ headNotSpace (rev (Extract.cleanText text))
  /\ (length (Extract.cleanText text) <= length text)%nat.
Proof.
  split; [apply ExtractMore.cleanText_chars|].
  unfold Extract.cleanText.
  split; [apply StringFacts.trim_ends|]. split; [apply StringFacts.trim_ends|].
  eapply Nat.le_trans; [apply ExtractMore.trim_length|].
  rewrite length_map. apply ExtractMore.collapseSpaces_length.
Qed.

(** X15.  A name returned by [extractName], on any text, is a line of the
    text with the white space at its ends removed; it is not empty, has
    fewer than 50 characters, no digit and no line break. *)
Theorem extractName_result (text name : str)
  (Hfound : Extract.extractName text = Some name) :
  (0 < length name < 50)%nat
  /\ existsb isDigit name = false
  /\ ~ In Extract.newline name
  /\ trim name = name
  /\ exists line,
       In line (splitChar Extract.newline [] text) /\ name = trim line.
Proof. apply ExtractMore.extractName_found, Hfound. Qed.

Lemma extractName_result_witness :
  (0 < length (lit "Jane Doe") < 50)%nat
  /\ existsb isDigit (lit "Jane Doe") = false.
Proof.
  assert (H : Extract.extractName
                (Extract.newline :: lit "  Jane Doe "
                 ++ Extract.newline :: lit "Engineer, 10 years")
              = Some (lit "Jane Doe"))
    by (vm_compute; reflexivity).
  destruct (extractName_result _ H) as [Hlen [Hdigit _]].
  split; assumption.
Defined.

(** X16.  The skills returned for a text are the vocabulary entries whose
    pattern matches the lower-cased text, in vocabulary order: none twice,
    at most 57, and the same for a text and its lower-case form. *)
Theorem extractSkills_by_vocabulary (text : str) :
  Extract.extractSkills text
  = map Extract.unescapePlus
        (filter (fun skill =>
                   Regex.test (Extract.skillRegex skill) (toLowerCase text))
                Extract.commonSkills)
  /\ NoDup (Extract.extractSkills text)
  /\ (length (Extract.extractSkills text) <= 57)%nat
  /\ Extract.extractSkills (toLowerCase text) = Extract.extractSkills text.
Proof.
  rewrite (extractSkills_eq (toLowerCase text)), (extractSkills_eq text).
  split; [apply ExtractMore.extractSkillsFrom_filter,
            ExtractMore.vocabulary_distinct|].
  split; [apply ExtractMore.extractSkillsFrom_NoDup|].
  split; [|apply ExtractMore.extractSkillsFrom_lower].
  rewrite (@ExtractMore.extractSkillsFrom_filter Extract.commonSkills text
             ExtractMore.vocabulary_distinct).
  rewrite length_map.
  eapply Nat.le_trans; [apply SignFacts.filter_length_bound|].
  rewrite ExtractMore.vocabulary_size. apply Nat.le_refl.
Qed.

(** X17.  To an [OPTIONS] request the resume handler replies without
    reading the body.  To any other request, with a decoded body, it fails
    exactly when the authorization header is absent or empty, the content
    or the file name is missing, or the insertion reports an error.  When
    it succeeds, the text it stores is the cleaned content, a stored
    address occurs in the stored text, a stored name is the whole stored
    text, and no skill is stored twice. *)
Theorem handleResume_outcome (method : str) (authHeader : option str)
  (resumeData : Extract.ResumeData) (insertError : option str) :
  let reply :=
    Extract.handleResume method authHeader resumeData insertError in
  (method = lit "OPTIONS" -> reply = Extract.ResumePreflight)
  /\ (method <> lit "OPTIONS" ->
      ((exists message, reply = Extract.ResumeFailed message)
       <-> authHeader = None
           \/ authHeader = Some []
           \/ Extract.content resumeData = []
           \/ Extract.filename resumeData = []
           \/ insertError <> None)
      /\ ((exists stored, reply = Extract.ResumeStored stored)
          \/ (exists message, reply = Extract.ResumeFailed message)))
  /\ forall stored,
       reply = Extract.ResumeStored stored ->
       Extract.extracted_text stored
       = Extract.cleanText (Extract.content resumeData)
       /\ (forall email,
             Extract.candidate_email stored = Some email ->
             ExtractShape.occursIn email (Extract.extracted_text stored))
       /\ (forall name,
             Extract.candidate_name stored = Some name ->
             name = Extract.extracted_text stored)
       /\ NoDup (Extract.skills stored).
Proof.
  cbv zeta. unfold Extract.handleResume.
  destruct (str_eqb method (lit "OPTIONS")) eqn:Em.
  { apply str_eqb_eq in Em. split; [reflexivity|].
    split; [intros H; contradiction | intros stored H; discriminate H]. }
  apply str_eqb_neq in Em. split; [intros H; contradiction|].
  unfold Extract.processResume.
  assert (Huse : forall (message : str) (C : Prop)
                        (Q : Extract.Extracted -> Prop),
             C ->
             (method <> lit "OPTIONS" ->
              ((exists message', Extract.ResumeFailed message
                                 = Extract.ResumeFailed message') <-> C)
              /\ ((exists stored, Extract.ResumeFailed message
                                  = Extract.ResumeStored stored)
                  \/ (exists message', Extract.ResumeFailed message
                                       = Extract.ResumeFailed message')))
             /\ forall stored,
                  Extract.ResumeFailed message = Extract.ResumeStored stored ->
                  Q stored).
  { intros message C Q HC. split.
    - intros _. split.
      + split; [intros _; exact HC | intros _; eexists; reflexivity].
      + right. eexists. reflexivity.
    - intros stored H. discriminate H. }
  destruct authHeader as [[|h value]|]; cbn [Extract.missing Extract.isEmpty];
    try (apply Huse; auto; fail).
  destruct (Extract.content resumeData) as [|c content] eqn:Ec;
    cbn [Extract.isEmpty orb]; try (apply Huse; auto; fail).
  destruct (Extract.filename resumeData) as [|f filename] eqn:Ef;
    cbn [Extract.isEmpty orb]; try (apply Huse; auto; fail).
  destruct insertError as [message|].
  { apply Huse. do 4 right. discriminate. }
  split.
  - intros _. split.
    + split.
      * intros [message H]. discriminate H.
      * intros [H|[H|[H|[H|H]]]]; try discriminate H. congruence.
    + left. eexists. reflexivity.
  - intros stored H. inversion H; subst stored. clear H.
    cbn [Extract.extracted_text Extract.candidate_email
         Extract.candidate_name Extract.skills].
    split; [reflexivity|]. split; [|split].
    + intros email He. apply (ExtractMore.extractEmail_found _ He).
    + intros name Hn.
      rewrite (@CleanFacts.extractName_one_line (Extract.cleanText (c :: content))
                 (CleanFacts.cleanText_no_newline (c :: content))
                 (CleanFacts.cleanText_trimmed (c :: content))) in Hn.
      destruct ((0 <? length (Extract.cleanText (c :: content)))%nat
                && (length (Extract.cleanText (c :: content)) <? 50)%nat
                && negb (existsb isDigit (Extract.cleanText (c :: content))));
        [inversion Hn; reflexivity | discriminate Hn].
    + rewrite extractSkills_eq. apply ExtractMore.extractSkillsFrom_NoDup.
Qed.

Lemma handleResume_outcome_witness :
  let resumeData :=
    {| Extract.filename := lit "cv.txt";
       Extract.content := lit "Jane Doe";
       Extract.userId := lit "u1" |} in
  (exists message,
     Extract.handleResume (lit "POST") (Some []) resumeData None
     = Extract.ResumeFailed message)
  /\ (exists message,
        Extract.handleResume (lit "POST") (Some (lit "Bearer key"))
          resumeData (Some (lit "duplicate key"))
        = Extract.ResumeFailed message)
  /\ ~ (exists message,
          Extract.handleResume (lit "POST") (Some (lit "Bearer key"))
            resumeData None
          = Extract.ResumeFailed message).
Proof.
  intros resumeData.
  assert (Hpost : lit "POST" <> lit "OPTIONS") by discriminate.
  split; [|split].
  - apply (proj1 (proj1 (proj2 (handleResume_outcome (lit "POST") (Some [])
                                 resumeData None)) Hpost)).
    right; left; reflexivity.
  - apply (proj1 (proj1 (proj2 (handleResume_outcome (lit "POST")
                                 (Some (lit "Bearer key")) resumeData
                                 (Some (lit "duplicate key")))) Hpost)).
    do 4 right. discriminate.
  - intros H.
    apply (proj1 (proj1 (proj2 (handleResume_outcome (lit "POST")
                                 (Some (lit "Bearer key")) resumeData None))
                   Hpost)) in H.
    destruct H as [H|[H|[H|[H|H]]]]; try discriminate H. congruence.
Defined.

(** ** Requirements of a job description *)

Module RequirementsFacts.
Import Requirements ExtractShape.

Lemma literal_colon (c : ascii) :
  Regex.literal true ":"%char c = true -> c = ":"%char.
Proof. by_cases_on_char c. Qed.

Lemma stripPrefix_suffix (word : str) :
  forall s rest, stripPrefix word s = Some rest -> exists p, s = p ++ rest.
Proof.
  induction word as [|w word IH]; intros s rest H; cbn [stripPrefix] in H.
  - inversion H; subst. exists []; reflexivity.
  - destruct s as [|c s]; [discriminate H|].
    destruct (Regex.literal true w c); [|discriminate H].
    destruct (IH _ _ H) as [p ->]. exists (c :: p); reflexivity.
Qed.

Lemma colon_found (s after : str) :
  colon s = Some after -> s = ":"%char :: after.
Proof.
  destruct s as [|c s]; cbn [colon]; [discriminate|].
  destruct (Regex.literal true ":"%char c) eqn:E; [|discriminate].
  intros H; inversion H; subst. apply literal_colon in E. subst; reflexivity.
Qed.

(** Where the head of a pattern is found, a colon ends it, and what follows
    is the rest of the text. *)
Lemma headerAt_found (word s after : str) :
  headerAt word s = Some after ->
  exists p, s = p ++ ":"%char :: after.
Proof.
  unfold headerAt.
  destruct (stripPrefix word s) as [rest|] eqn:E; [|discriminate].
  destruct (stripPrefix_suffix _ _ E) as [p ->].
  assert (Hcolon : forall q r, rest = q ++ r -> colon r = Some after ->
                          exists p', p ++ rest = p' ++ ":"%char :: after).
  { intros q r -> Hc. apply colon_found in Hc. subst r.
    exists (p ++ q). rewrite <- app_assoc. reflexivity. }
  destruct rest as [|c rest'].
  - simpl. discriminate.
  - cbv zeta. destruct (Regex.literal true "s"%char c).
    + destruct (colon rest') as [a|] eqn:Ec.
      * intros H; inversion H; subst a.
        apply (Hcolon [c] rest' eq_refl Ec).
      * intros H. apply (Hcolon [] (c :: rest') eq_refl H).
    + intros H. apply (Hcolon [] (c :: rest') eq_refl H).
Qed.

Lemma lazyUntil_prefix (stops : list str) (s : str) :
  exists after, s = lazyUntil stops s ++ after.
Proof.
  induction s as [|c s [after IH]]; simpl.
  - destruct (stopsHere stops []); exists []; reflexivity.
  - destruct (stopsHere stops (c :: s)).
    + exists (c :: s); reflexivity.
    + exists after. simpl. f_equal. exact IH.
Qed.

Lemma lazyUntil_no_blank_line (stops : list str) (s : str) :
  ~ occursIn [newline; newline] (lazyUntil stops s).
Proof.
  induction s as [|c s IH]; intros [before [after H]].
  - assert (E : lazyUntil stops [] = [])
      by (simpl; destruct (stopsHere stops []); reflexivity).
    rewrite E in H. destruct before; discriminate H.
  - cbn [lazyUntil] in H.
    destruct (stopsHere stops (c :: s)) eqn:Estop;
      [destruct before; discriminate H|].
    destruct before as [|x before].
    + cbn [app] in H. inversion H as [[Hc Hrest]]. subst c.
      destruct s as [|c2 s].
      * assert (E : lazyUntil stops [] = [])
          by (simpl; destruct (stopsHere stops []); reflexivity).
        rewrite E in Hrest. discriminate Hrest.
      * cbn [lazyUntil] in Hrest.
        destruct (stopsHere stops (c2 :: s)); [discriminate Hrest|].
        inversion Hrest; subst c2.
        assert (Etrue : stopsHere stops (newline :: newline :: s) = true)
          by reflexivity.
        congruence.
    + cbn [app] in H. inversion H as [[Hx Hrest]].
      apply IH. exists before, after. exact Hrest.
Qed.

Lemma findSection_piece (word : str) (stops : list str) (s group : str) :
  findSection word stops s = Some group ->
  occursIn group s
  /\ In ":"%char s
  /\ ~ occursIn [newline; newline] group.
Proof.
  induction s as [|c s IH]; cbn [findSection].
  - destruct (headerAt word []) as [rest|] eqn:E; [|discriminate].
    destruct (headerAt_found _ _ E) as [p Hp].
    destruct p; discriminate Hp.
  - destruct (headerAt word (c :: s)) as [rest|] eqn:E.
    + intros H; inversion H; subst group. clear H.
      destruct (headerAt_found _ _ E) as [p Hp].
      destruct (lazyUntil_prefix stops rest) as [after Ha].
      split; [|split].
      * exists (p ++ [":"%char]), after. rewrite Hp, <- app_assoc.
        simpl. rewrite <- Ha. reflexivity.
      * rewrite Hp. apply in_or_app; right; left; reflexivity.
      * apply lazyUntil_no_blank_line.
    + intros H. destruct (IH H) as [[before [after Ho]] [Hc Hn]].
      split; [|split].
      * exists (c :: before), after. rewrite Ho. reflexivity.
      * right; exact Hc.
      * exact Hn.
Qed.

Lemma trim_occursIn (s : str) : occursIn (trim s) s.
Proof.
  unfold trim.
  destruct (StringFacts.dropSpaces_suffix s) as [p Hp].
  destruct (StringFacts.dropSpaces_suffix (rev (dropSpaces s))) as [q Hq].
  exists p, (rev q).
  rewrite <- rev_app_distr, <- Hq, rev_involutive. exact Hp.
Qed.

Lemma occursIn_trans (a b c : str) :
  occursIn a b -> occursIn b c -> occursIn a c.
Proof.
  intros [p1 [q1 ->]] [p2 [q2 ->]].
  exists (p2 ++ p1), (q1 ++ q2). rewrite <- !app_assoc. reflexivity.
Qed.

(** What the loop over the patterns collects. *)
Lemma sections_loop (P : str -> Prop) (text : str)
  (patternList : list (str * list str)) :
  (forall word stops group,
     findSection word stops text = Some group -> P (trim group)) ->
  forall sections,
    Forall P sections ->
    Forall P
      (fold_left
         (fun requirementSections pattern =>
            match findSection (fst pattern) (snd pattern) text with
            | Some group =>
                if Extract.isEmpty group then requirementSections
                else requirementSections ++ [trim group]
            | None => requirementSections
            end)
         patternList sections).
Proof.
  intros HP. induction patternList as [|[word stops] patternList IH];
    intros sections Hs; cbn [fold_left fst snd]; [exact Hs|].
  apply IH.
  destruct (findSection word stops text) as [group|] eqn:E; [|exact Hs].
  destruct (Extract.isEmpty group); [exact Hs|].
  apply Forall_app. split; [exact Hs|].
  constructor; [apply (HP _ _ _ E) | constructor].
Qed.

Lemma sectionsOf_pieces (text : str) :
  Forall (fun section =>
            occursIn section text
            /\ ~ occursIn [newline; newline] section
            /\ trim section = section)
         (sectionsOf text).
Proof.
  unfold sectionsOf. apply sections_loop; [|constructor].
  intros word stops group H.
  destruct (findSection_piece _ _ _ H) as [Hocc [_ Hnb]].
  split; [|split].
  - apply (occursIn_trans (trim_occursIn group) Hocc).
  - intros Hin. apply Hnb.
    apply (occursIn_trans Hin (trim_occursIn group)).
  - apply StringFacts.trim_trim.
Qed.

Lemma sectionsOf_without_colon (text : str) :
  ~ In ":"%char text -> sectionsOf text = [].
Proof.
  intros Hno. unfold sectionsOf.
  assert (Hnone : forall word stops, findSection word stops text = None).
  { intros word stops.
    destruct (findSection word stops text) as [g|] eqn:E; [|reflexivity].
    destruct (findSection_piece _ _ _ E) as [_ [Hc _]]. contradiction. }
  unfold patterns. cbn [fold_left fst snd].
  rewrite (Hnone (lit "requirement")), (Hnone (lit "qualification")),
    (Hnone (lit "required skill")).
  reflexivity.
Qed.

Lemma extractRequirements_nonempty (text : str) :
  extractRequirements text = [] <-> text = [].
Proof.
  unfold extractRequirements. cbv zeta.
  destruct (join [newline; newline] (sectionsOf text)) as [|c joined] eqn:E;
    cbn [Extract.isEmpty].
  - destruct text as [|c text]; simpl; split; congruence.
  - split; [discriminate|]. intros ->.
    rewrite (@sectionsOf_without_colon [] (fun H => H)) in E.
    discriminate E.
Qed.

End RequirementsFacts.

(** X18.  A job description without a colon has no requirements section:
    [extractRequirements] returns its first 500 characters, the whole
    description when it is not longer. *)
Theorem extractRequirements_fallback (text : str)
  (Hno : ~ In ":"%char text) :
  Requirements.extractRequirements text = firstn 500 text
  /\ (length (Requirements.extractRequirements text) <= 500)%nat
  /\ ((length text <= 500)%nat ->
      Requirements.extractRequirements text = text).
Proof.
  assert (E : Requirements.extractRequirements text = firstn 500 text).
  { unfold Requirements.extractRequirements.
    rewrite (@RequirementsFacts.sectionsOf_without_colon text Hno).
    reflexivity. }
  rewrite E. split; [reflexivity|]. split.
  - apply firstn_le_length.
  - intros Hlen. apply firstn_all2, Hlen.
Qed.

Lemma extractRequirements_fallback_witness :
  Requirements.extractRequirements (lit "Senior React developer wanted")
  = lit "Senior React developer wanted".
Proof.
  assert (Hno : ~ In ":"%char (lit "Senior React developer wanted")).
  { assert (H : existsb (Ascii.eqb ":"%char)
                        (lit "Senior React developer wanted") = false)
      by (vm_compute; reflexivity).
    intros Hin.
    assert (H' : existsb (Ascii.eqb ":"%char)
                         (lit "Senior React developer wanted") = true).
    { apply existsb_exists. exists ":"%char.
      split; [exact Hin | reflexivity]. }
    congruence. }
  apply (proj2 (proj2 (@extractRequirements_fallback _ Hno))).
  vm_compute. lia.
Defined.

(** X19.  Every section [extractRequirements] collects is a piece of the
    description, with no white space at its ends and no blank line inside;
    and the requirements returned are empty only for an empty
    description. *)
Theorem extractRequirements_sections (text : str) :
  Forall (fun section =>
            ExtractShape.occursIn section text
            /\ ~ ExtractShape.occursIn
                   [Requirements.newline; Requirements.newline] section
            /\ trim section = section)
         (Requirements.sectionsOf text)
  /\ (Requirements.extractRequirements text = [] <-> text = []).
Proof.
  split; [apply RequirementsFacts.sectionsOf_pieces
         | apply RequirementsFacts.extractRequirements_nonempty].
Qed.

(** X20.  To an [OPTIONS] request the job handler replies without reading
    the body.  To any other request, with a decoded body, it fails exactly
    when the authorization header is absent or empty, the description or
    the title is missing, or the insertion reports an error.  When it
    succeeds, the row keeps the title and the description, its requirements
    are those extracted from the description and are not empty, and its
    status is [active]. *)
Theorem processJobDescription_outcome (method : str)
  (authHeader : option str) (jobData : Requirements.JobData)
  (insertError : option str) :
  let reply :=
    Requirements.processJobDescription method authHeader jobData
      insertError in
  (method = lit "OPTIONS" -> reply = Requirements.JobPreflight)
  /\ (method <> lit "OPTIONS" ->
      ((exists message, reply = Requirements.JobFailed message)
       <-> authHeader = None
           \/ authHeader = Some []
           \/ Requirements.description jobData = []
           \/ Requirements.title jobData = []
           \/ insertError <> None)
      /\ ((exists row, reply = Requirements.JobStored row)
          \/ (exists message, reply = Requirements.JobFailed message)))
  /\ forall row,
       reply = Requirements.JobStored row ->
       Requirements.row_title row = Requirements.title jobData
       /\ Requirements.row_description row = Requirements.description jobData
       /\ Requirements.row_requirements row
          = Requirements.extractRequirements
              (Requirements.description jobData)
       /\ Requirements.row_requirements row <> []
       /\ Requirements.row_status row = lit "active".
Proof.
  cbv zeta. unfold Requirements.processJobDescription.
  destruct (str_eqb method (lit "OPTIONS")) eqn:Em.
  { apply str_eqb_eq in Em. split; [reflexivity|].
    split; [intros H; contradiction | intros row H; discriminate H]. }
  apply str_eqb_neq in Em. split; [intros H; contradiction|].
  assert (Huse : forall (message : str) (C : Prop)
                        (Q : Requirements.JobRow -> Prop),
             C ->
             (method <> lit "OPTIONS" ->
              ((exists message', Requirements.JobFailed message
                                 = Requirements.JobFailed message') <-> C)
              /\ ((exists row, Requirements.JobFailed message
                               = Requirements.JobStored row)
                  \/ (exists message', Requirements.JobFailed message
                                       = Requirements.JobFailed message')))
             /\ forall row,
                  Requirements.JobFailed message = Requirements.JobStored row ->
                  Q row).
  { intros message C Q HC. split.
    - intros _. split.
      + split; [intros _; exact HC | intros _; eexists; reflexivity].
      + right. eexists. reflexivity.
    - intros row H. discriminate H. }
  destruct authHeader as [[|h value]|]; cbn [Extract.missing Extract.isEmpty];
    try (apply Huse; auto; fail).
  destruct (Requirements.description jobData) as [|c description] eqn:Ed;
    cbn [Extract.isEmpty orb]; try (apply Huse; auto; fail).
  destruct (Requirements.title jobData) as [|t title] eqn:Et;
    cbn [Extract.isEmpty orb]; try (apply Huse; auto; fail).
  cbv zeta.
  destruct insertError as [message|].
  { apply Huse. do 4 right. discriminate. }
  split.
  - intros _. split.
    + split.
      * intros [message H]. discriminate H.
      * intros [H|[H|[H|[H|H]]]]; try discriminate H. congruence.
    + left. eexists. reflexivity.
  - intros row H. inversion H; subst row. clear H.
    cbn [Requirements.row_title Requirements.row_description
         Requirements.row_requirements Requirements.row_status].
    repeat apply conj; try reflexivity.
    intros Hempty.
    apply (proj1 (RequirementsFacts.extractRequirements_nonempty _))
      in Hempty.
    discriminate Hempty.
Qed.

Lemma processJobDescription_outcome_witness :
  let jobData :=
    {| Requirements.title := lit "Frontend developer";
       Requirements.description := lit "React and Redux";
       Requirements.userId := lit "u1" |} in
  (exists message,
     Requirements.processJobDescription (lit "POST") (Some []) jobData None
     = Requirements.JobFailed message)
  /\ (exists message,
        Requirements.processJobDescription (lit "POST")
          (Some (lit "Bearer key")) jobData (Some (lit "insert failed"))
        = Requirements.JobFailed message)
  /\ ~ (exists message,
          Requirements.processJobDescription (lit "POST")
            (Some (lit "Bearer key")) jobData None
          = Requirements.JobFailed message).
Proof.
  intros jobData.
  assert (Hpost : lit "POST" <> lit "OPTIONS") by discriminate.
  split; [|split].
  - apply (proj1 (proj1 (proj2 (processJobDescription_outcome (lit "POST")
                                 (Some []) jobData None)) Hpost)).
    right; left; reflexivity.
  - apply (proj1 (proj1 (proj2 (processJobDescription_outcome (lit "POST")
                                 (Some (lit "Bearer key")) jobData
                                 (Some (lit "insert failed")))) Hpost)).
    do 4 right. discriminate.
  - intros H.
    apply (proj1 (proj1 (proj2 (processJobDescription_outcome (lit "POST")
                                 (Some (lit "Bearer key")) jobData None))
                   Hpost)) in H.
    destruct H as [H|[H|[H|[H|H]]]]; try discriminate H. congruence.
Defined.

(** ** Documents without a common token *)

Module DisjointFacts.
Import Similarity.

Lemma tfValueOf_absent (tokens : list str) (k : str) :
  ~ In k tokens -> tfValueOf tokens k = 0.
Proof.
  intros Hno. unfold tfValueOf.
  assert (Hc : countOf k tokens = 0%nat)
    by (rewrite TfIdfFacts.countOf_count_occ; apply count_occ_not_In, Hno).
  rewrite Hc. simpl. ring.
Qed.

Lemma cosineSimilarity_orthogonal (vec1 vec2 : amap R) :
  (forall k, orZero (mget vec1 k) * orZero (mget vec2 k) = 0) ->
  cosineSimilarity vec1 vec2 = 0.
Proof.
  intros H. rewrite CosineFacts.cosineSimilarity_sums. cbv zeta.
  rewrite (CosineFacts.sumOver_zero
             (fun k => orZero (mget vec1 k) * orZero (mget vec2 k)) _ H).
  destruct (isZero _ || isZero _); [reflexivity|].
  unfold Rdiv. ring.
Qed.

Lemma no_element_nil (A : Type) (l : list A) :
  (forall x, ~ In x l) -> l = [].
Proof.
  destruct l as [|x l]; [reflexivity|].
  intros H. elim (H x). left; reflexivity.
Qed.

End DisjointFacts.

(** X21.  Two documents with no token in common have cosine similarity 0,
    whatever the corpus they are weighted against, provided it is not
    empty; and they have no matched keyword. *)
Theorem disjoint_documents_score_zero (d1 d2 : list str)
  (corpus : list (list str)) (topN : nat)
  (Hne : corpus <> [])
  (Hdisjoint : forall k, In k d1 -> ~ In k d2) :
  Similarity.cosineSimilarity (Similarity.calculateTfIdf d1 corpus)
                              (Similarity.calculateTfIdf d2 corpus) = 0
  /\ Similarity.findMatchedKeywords d1 d2 topN = [].
Proof.
  split.
  - apply DisjointFacts.cosineSimilarity_orthogonal. intros k.
    rewrite !TfIdfFacts.calculateTfIdf_orZero.
    destruct (in_dec str_eq_dec k d1) as [Hin|Hno].
    + rewrite (DisjointFacts.tfValueOf_absent d2 k (Hdisjoint k Hin)). ring.
    + rewrite (DisjointFacts.tfValueOf_absent d1 k Hno). ring.
  - apply DisjointFacts.no_element_nil. intros k Hk.
    destruct (KeywordFacts.findMatchedKeywords_sound d1 d2 topN)
      as [Hboth _].
    destruct (Hboth k Hk) as [H1 H2]. exact (Hdisjoint k H1 H2).
Qed.

Lemma disjoint_documents_score_zero_witness :
  Similarity.cosineSimilarity
    (Similarity.calculateTfIdf [lit "react"; lit "redux"]
       [[lit "react"; lit "redux"]; [lit "python"]])
    (Similarity.calculateTfIdf [lit "python"]
       [[lit "react"; lit "redux"]; [lit "python"]]) = 0.
Proof.
  apply (@disjoint_documents_score_zero [lit "react"; lit "redux"]
           [lit "python"] [[lit "react"; lit "redux"]; [lit "python"]] 10).
  - discriminate.
  - intros k [<-|[<-|[]]] [H|[]]; discriminate H.
Defined.

(** ** Scores and the order of the resumes *)

Module OrderFacts.
Import Similarity.

Lemma filter_length_perm (A : Type) (p : A -> bool) (l l' : list A) :
  Permutation l l' -> length (filter p l) = length (filter p l').
Proof.
  induction 1 as [| x l l' _ IH | x y l | l l' l'' _ IH1 _ IH2]; simpl.
  - reflexivity.
  - destruct (p x); simpl; congruence.
  - destruct (p x), (p y); reflexivity.
  - congruence.
Qed.

Lemma idfValueOf_perm (all all' : list (list str)) (k : str) :
  Permutation all all' -> idfValueOf all k = idfValueOf all' k.
Proof.
  intros Hp. unfold idfValueOf.
  rewrite (Permutation_length Hp), (filter_length_perm _ Hp). reflexivity.
Qed.

(** A map with distinct keys is the list of its keys with their values. *)
Lemma amap_by_keys (m : amap R) :
  NoDup (mkeys m) ->
  m = map (fun k => (k, orZero (mget m k))) (mkeys m).
Proof.
  unfold mkeys. induction m as [|[k v] m IH]; intros Hnd; [reflexivity|].
  inversion Hnd as [|? ? Hnotin Hnd']; subst.
  cbn [map fst mget]. rewrite str_eqb_refl. cbn [orZero]. f_equal.
  transitivity (map (fun k => (k, orZero (mget m k))) (map fst m));
    [apply IH, Hnd'|].
  rewrite !map_map.
  apply map_ext_in. intros [k' v'] Hin. cbn [fst].
  destruct (str_eqb k' k) eqn:E; [|reflexivity].
  apply str_eqb_eq in E. subst k'. elim Hnotin.
  apply in_map_iff. exists (k, v'). split; [reflexivity | exact Hin].
Qed.

(** The whole vector, entry by entry. *)
Lemma calculateTfIdf_entries_list (tokens : list str)
  (allTokens : list (list str)) :
  calculateTfIdf tokens allTokens
  = map (fun k => (k, tfValueOf tokens k * idfValueOf allTokens k))
        (Extract.setOf tokens).
Proof.
  rewrite (amap_by_keys (calculateTfIdf tokens allTokens)) at 1.
  - rewrite KeysFacts.calculateTfIdf_keys. apply map_ext. intros k.
    rewrite TfIdfFacts.calculateTfIdf_orZero. reflexivity.
  - rewrite KeysFacts.calculateTfIdf_keys. apply SetMore.setOf_NoDup.
Qed.

Lemma calculateTfIdf_perm (tokens : list str) (all all' : list (list str)) :
  Permutation all all' ->
  calculateTfIdf tokens all = calculateTfIdf tokens all'.
Proof.
  intros Hp. rewrite !calculateTfIdf_entries_list.
  apply map_ext. intros k. rewrite (idfValueOf_perm k Hp). reflexivity.
Qed.

Lemma scoreAll_perm (jobPosting : JobPosting) (resumes resumes' : list Resume) :
  NoDup (map id resumes) -> Permutation resumes resumes' ->
  Permutation (scoreAll jobPosting resumes) (scoreAll jobPosting resumes').
Proof.
  intros Hnd Hp.
  assert (Hnd' : NoDup (map id resumes'))
    by (apply (Permutation_NoDup (Permutation_map id Hp) Hnd)).
  assert (Hall : Permutation
                   (jobTokensOf jobPosting
                    :: map (fun resume =>
                              Tokenizer.tokenize (extracted_text resume))
                           resumes)
                   (jobTokensOf jobPosting
                    :: map (fun resume =>
                              Tokenizer.tokenize (extracted_text resume))
                           resumes'))
    by (apply perm_skip, Permutation_map, Hp).
  unfold scoreAll. cbv zeta.
  rewrite (calculateTfIdf_perm (jobTokensOf jobPosting) Hall).
  eapply perm_trans; [|apply Permutation_map, Hp].
  match goal with
  | |- Permutation (map ?f resumes) (map ?g resumes) =>
      replace (map f resumes) with (map g resumes);
        [apply Permutation_refl|]
  end.
  apply map_ext_in. intros resume Hin.
  assert (Hin' : In resume resumes') by (apply (Permutation_in _ Hp), Hin).
  rewrite (@DegenerateFacts.tokensFor_own resumes resume Hnd Hin).
  rewrite (@DegenerateFacts.tokensFor_own resumes' resume Hnd' Hin').
  rewrite (calculateTfIdf_perm _ Hall). reflexivity.
Qed.

End OrderFacts.

(** X22.  The scores do not depend on the order in which the resumes were
    fetched: for resumes with distinct identifiers, reordering the list
    only reorders the results computed before sorting, each resume keeping
    its score and its matched keywords. *)
Theorem scores_independent_of_order (jobPosting : Similarity.JobPosting)
  (resumes resumes' : list Similarity.Resume)
  (Hnd : NoDup (map Similarity.id resumes))
  (Hperm : Permutation resumes resumes') :
  Permutation (Similarity.scoreAll jobPosting resumes)
              (Similarity.scoreAll jobPosting resumes')
  /\ Permutation
       (Similarity.sortResults (Similarity.scoreAll jobPosting resumes))
       (Similarity.sortResults (Similarity.scoreAll jobPosting resumes')).
Proof.
  pose proof (OrderFacts.scoreAll_perm jobPosting Hnd Hperm) as H.
  split; [exact H|].
  eapply perm_trans; [apply RankingFacts.sortResults_perm|].
  eapply perm_trans; [exact H|].
  apply Permutation_sym, RankingFacts.sortResults_perm.
Qed.

Lemma scores_independent_of_order_witness :
  let jobPosting :=
    {| Similarity.job_id := lit "job-1";
       Similarity.description := lit "React developer";
       Similarity.requirements := None |} in
  let a := {| Similarity.id := lit "resume-1";
              Similarity.extracted_text := lit "Python developer" |} in
  let b := {| Similarity.id := lit "resume-2";
              Similarity.extracted_text := lit "React developer" |} in
  Permutation (Similarity.scoreAll jobPosting [a; b])
              (Similarity.scoreAll jobPosting [b; a]).
Proof.
  intros jobPosting a b.
  apply (@scores_independent_of_order jobPosting [a; b] [b; a]).
  - constructor; [intros [H|[]]; discriminate H|].
    constructor; [intros []|constructor].
  - apply perm_swap.
Defined.
